(** * LogWeaver: the honeypot logger of [logweaver.py], embedded in Rocq

    The development follows the source file top down:
    - Python values ([bytes], [str]) and the built-in string operations the
      program calls ([decode], [encode], [hex], [strip], [lower], [in]);
    - the outside world (console, log file, clock, sockets) as an explicit
      state, with Python's exceptions as an outcome of every operation;
    - [log_event], [handle_connection] and [start_honeypot], statement by
      statement;
    - the properties of the per-connection engine. *)

From Stdlib Require Import List NArith ZArith Lia Bool ZifyBool ZifyN.
From Stdlib Require Import Strings.String Strings.Ascii Strings.Byte.
From Stdlib Require Import DecimalString.
Import ListNotations.

(** ** Python values *)

Module Py.

(** A [bytes] object. *)
Definition bytes := list byte.

(** A [str] object: a sequence of Unicode code points. *)
Definition str := list N.

(** A string literal of the source (all of them are ASCII, except the RDP
    banner, which is written out code point by code point below). *)
Definition lit (s : string) : str :=
  map N_of_ascii (list_ascii_of_string s).

Fixpoint str_eqb (a b : str) : bool :=
  match a, b with
  | [], [] => true
  | x :: a', y :: b' => N.eqb x y && str_eqb a' b'
  | _, _ => false
  end.

(** [str(n)] for an [int]. *)
Definition str_of_int (n : Z) : str :=
  lit (NilZero.string_of_int (Z.to_int n)).

(** *** [bytes.decode('utf-8')], strict

    The well-formed byte sequences of the Unicode standard (table 3-7):
    no overlong form, no surrogate, nothing above U+10FFFF.  [None] stands
    for [UnicodeDecodeError]. *)

Definition is_cont (b : N) : bool := (0x80 <=? b)%N && (b <=? 0xBF)%N.
Definition in_range (lo hi b : N) : bool := (lo <=? b)%N && (b <=? hi)%N.

(** The admissible range of the second byte, given the lead byte of a
    three- or four-byte sequence. *)
Definition second_ok (b0 b1 : N) : bool :=
  if (b0 =? 0xE0)%N then in_range 0xA0 0xBF b1
  else if (b0 =? 0xED)%N then in_range 0x80 0x9F b1
  else if (b0 =? 0xF0)%N then in_range 0x90 0xBF b1
  else if (b0 =? 0xF4)%N then in_range 0x80 0x8F b1
  else is_cont b1.

Fixpoint decode_points (data : list N) : option str :=
  match data with
  | [] => Some []
  | b0 :: t0 =>
    if (b0 <? 0x80)%N then option_map (cons b0) (decode_points t0)
    else
      match t0 with
      | [] => None
      | b1 :: t1 =>
        if in_range 0xC2 0xDF b0 then
          if is_cont b1
          then option_map (cons ((b0 - 0xC0) * 64 + (b1 - 0x80))%N)
                          (decode_points t1)
          else None
        else
          match t1 with
          | [] => None
          | b2 :: t2 =>
            if in_range 0xE0 0xEF b0 then
              if second_ok b0 b1 && is_cont b2
              then option_map
                     (cons ((b0 - 0xE0) * 4096 + (b1 - 0x80) * 64
                            + (b2 - 0x80))%N)
                     (decode_points t2)
              else None
            else
              match t2 with
              | [] => None
              | b3 :: t3 =>
                if in_range 0xF0 0xF4 b0 then
                  if second_ok b0 b1 && is_cont b2 && is_cont b3
                  then option_map
                         (cons ((b0 - 0xF0) * 262144 + (b1 - 0x80) * 4096
                                + (b2 - 0x80) * 64 + (b3 - 0x80))%N)
                         (decode_points t3)
                  else None
                else None
              end
          end
      end
  end.

Definition decode_utf8 (data : bytes) : option str :=
  decode_points (map Byte.to_N data).

(** *** [str.encode()] (UTF-8); [None] stands for [UnicodeEncodeError]
    (a lone surrogate). *)

Definition byte_of_N (n : N) : byte :=
  match Byte.of_N (n mod 256) with
  | Some b => b
  | None => x00
  end.

Definition encode_point (c : N) : option bytes :=
  if (c <? 0x80)%N then Some [byte_of_N c]
  else if (c <? 0x800)%N then
    Some [byte_of_N (0xC0 + c / 64); byte_of_N (0x80 + c mod 64)]
  else if in_range 0xD800 0xDFFF c then None
  else if (c <? 0x10000)%N then
    Some [byte_of_N (0xE0 + c / 4096); byte_of_N (0x80 + (c / 64) mod 64);
          byte_of_N (0x80 + c mod 64)]
  else if (c <? 0x110000)%N then
    Some [byte_of_N (0xF0 + c / 262144); byte_of_N (0x80 + (c / 4096) mod 64);
          byte_of_N (0x80 + (c / 64) mod 64); byte_of_N (0x80 + c mod 64)]
  else None.

Fixpoint encode_utf8 (s : str) : option bytes :=
  match s with
  | [] => Some []
  | c :: t =>
    match encode_point c, encode_utf8 t with
    | Some bs, Some rest => Some (bs ++ rest)
    | _, _ => None
    end
  end.

(** *** [bytes.hex()]: two lowercase hexadecimal digits per byte. *)

Definition hex_digit (n : N) : N :=
  if (n <? 10)%N then (48 + n)%N else (87 + n)%N.

Definition hex_byte (b : byte) : str :=
  [hex_digit (Byte.to_N b / 16); hex_digit (Byte.to_N b mod 16)].

Definition hex (data : bytes) : str := flat_map hex_byte data.

(** *** [bytes.fromhex]: the inverse used to read a logged payload back.
    Both letter cases are accepted and ASCII whitespace between two bytes
    is skipped; [None] stands for [ValueError]. *)




(** *** [str.strip()]: the characters for which [str.isspace] holds are
    removed from both ends. *)

Definition isspace (c : N) : bool :=
  in_range 0x09 0x0D c || in_range 0x1C 0x20 c
  || (c =? 0x85)%N || (c =? 0xA0)%N || (c =? 0x1680)%N
  || in_range 0x2000 0x200A c || (c =? 0x2028)%N || (c =? 0x2029)%N
  || (c =? 0x202F)%N || (c =? 0x205F)%N || (c =? 0x3000)%N.

Fixpoint lstrip (s : str) : str :=
  match s with
  | [] => []
  | c :: t => if isspace c then lstrip t else s
  end.

Definition rstrip (s : str) : str := rev (lstrip (rev s)).

Definition strip (s : str) : str := rstrip (lstrip s).

(** *** [needle in hay] on strings: substring test. *)

Fixpoint startswith (p s : str) : bool :=
  match p, s with
  | [], _ => true
  | _ :: _, [] => false
  | a :: p', b :: s' => N.eqb a b && startswith p' s'
  end.

Fixpoint contains (needle hay : str) : bool :=
  startswith needle hay
  || match hay with
     | [] => false
     | _ :: t => contains needle t
     end.

(** *** [str.lower()]

    On a string of ASCII characters [lower] maps [A-Z] to [a-z] and leaves
    the rest.  On a string with a character outside ASCII the result is read
    from the case tables of the Unicode database shipped with the
    interpreter; those are not part of this program and are taken as a
    parameter [unicode_lower] wherever [lower] is used. *)

Definition is_ascii (c : N) : bool := (c <? 128)%N.

Definition ascii_lower (c : N) : N :=
  if in_range 65 90 c then (c + 32)%N else c.

Definition lower (unicode_lower : str -> str) (s : str) : str :=
  if forallb is_ascii s then map ascii_lower s else unicode_lower s.

End Py.

Import Py.

(** ** Exceptions, the outside world, and the monad of effects

    The program talks to a console, a log file, a clock and sockets.  Each
    is a field of the state below, and each call that can fail takes its
    outcome from that state: [recv], [send], [getpeername], [bind],
    [listen], [accept], and the appending to the log file (opening the
    file and writing to it count as one step).  [print] and the two
    [close] calls are taken never to fail. *)

(** What the interpreter supplies beyond the program text: the Unicode case
    tables behind [str.lower], and the wording of [UnicodeEncodeError]. *)
Record runtime := {
  unicode_lower : str -> str;
  encode_error_text : str -> str
}.

(** The exceptions the program can meet; all derive from [Exception].  The
    argument is [str(e)]. *)
Inductive exn :=
| OSError (text : str)
| UnicodeEncodeError (text : str).

Definition str_of_exn (e : exn) : str :=
  match e with
  | OSError text => text
  | UnicodeEncodeError text => text
  end.

(** One entry of the [HONEYPOTS] table. *)
Record honeypot_config := {
  port : Z;
  name : str;
  banner : str
}.

(** The result of one [recv(1024)] on a connected socket: some bytes (the
    empty [bytes] object when the peer has closed) or a failure. *)
Inductive recv_result :=
| Received (data : bytes)
| RecvFails (text : str).

(** A connected socket as [accept] hands it over, described by what the
    peer will do: the answer of [getpeername], and the results of the
    successive [recv] calls.  The sequence is a whole simulated connection:
    after its last element the peer has closed, and [recv] returns [b'']. *)
Record client_socket := {
  peername : (str * Z) + str;
  incoming : list recv_result
}.

(** The event sink: console, log file and clock.  [sink_faults] gives the
    outcome of the next attempts to append to the log file ([None]: the
    text is written; [Some text]: [OSError(text)] is raised and nothing is
    written); once it is used up every attempt succeeds. *)
Record sink_state := {
  console : list str;
  logfile : list str;
  ticks : nat;
  clock : nat -> str;
  sink_faults : list (option str)
}.

(** The connection of the session at hand: the data passed to the [send]
    calls that succeeded, the outcome of the next [send] calls, and whether
    [close] has been called. *)
Record conn_state := {
  sent : list bytes;
  send_faults : list (option str);
  closed : bool
}.

(** The listening socket of the listener at hand, and the sessions it has
    handed to new threads. *)
Record listener_state := {
  bound : option (str * Z);
  listening : bool;
  server_closed : bool;
  spawned : list (client_socket * honeypot_config)
}.

Record world := {
  sink : sink_state;
  conn : conn_state;
  listener : listener_state
}.

Definition with_sink (w : world) (s : sink_state) : world :=
  {| sink := s; conn := conn w; listener := listener w |}.
Definition with_conn (w : world) (c : conn_state) : world :=
  {| sink := sink w; conn := c; listener := listener w |}.
Definition with_listener (w : world) (l : listener_state) : world :=
  {| sink := sink w; conn := conn w; listener := l |}.

(** How a call ends: with a value, with an exception, or not at all (the
    thread waits in a blocking call until the process goes away). *)
Inductive outcome (A : Type) :=
| Ok (a : A)
| Raise (e : exn)
| Blocked.
Arguments Ok {A} a.
Arguments Raise {A} e.
Arguments Blocked {A}.

Definition M (A : Type) := world -> outcome A * world.

Definition ret {A} (a : A) : M A := fun w => (Ok a, w).
Definition raise {A} (e : exn) : M A := fun w => (Raise e, w).
Definition blocked {A} : M A := fun w => (Blocked, w).

Definition bind {A B} (m : M A) (k : A -> M B) : M B :=
  fun w =>
    match m w with
    | (Ok a, w') => k a w'
    | (Raise e, w') => (Raise e, w')
    | (Blocked, w') => (Blocked, w')
    end.

Declare Scope py_scope.
Delimit Scope py_scope with py.
Notation "x <- m ;; k" := (bind m (fun x => k))
  (at level 100, m at next level, right associativity) : py_scope.
Notation "m ;; k" := (bind m (fun _ => k))
  (at level 100, right associativity) : py_scope.
Open Scope py_scope.

(** [try: body  except Exception as e: handler e]. *)
Definition try_except {A} (body : M A) (handler : exn -> M A) : M A :=
  fun w =>
    match body w with
    | (Raise e, w') => handler e w'
    | r => r
    end.

(** [try: body  finally: final]: [final] runs however [body] ends, and an
    exception of [final] replaces the one of [body]. *)
Definition try_finally {A} (body : M A) (final : M unit) : M A :=
  fun w =>
    match body w with
    | (Blocked, w') => (Blocked, w')
    | (r, w') =>
      match final w' with
      | (Ok _, w'') => (r, w'')
      | (Raise e, w'') => (Raise e, w'')
      | (Blocked, w'') => (Blocked, w'')
      end
    end.

(** How a loop body ends when it does not raise. *)
Inductive control := Continue | Break.

(** *** Primitive operations *)

(** [datetime.now().strftime(...)]. *)
Definition read_clock : M str :=
  fun w =>
    let s := sink w in
    (Ok (clock s (ticks s)),
     with_sink w {| console := console s; logfile := logfile s;
                    ticks := S (ticks s); clock := clock s;
                    sink_faults := sink_faults s |}).

(** [print(line)].  The console is taken to accept the line.  (The
    interpreter raises [UnicodeEncodeError] when the encoding of [stdout]
    cannot express a character of the line; no line of ASCII characters
    does that.) *)
Definition print (line : str) : M unit :=
  fun w =>
    let s := sink w in
    (Ok tt,
     with_sink w {| console := console s ++ [line]; logfile := logfile s;
                    ticks := ticks s; clock := clock s;
                    sink_faults := sink_faults s |}).

(** [with open(LOG_FILE, "a") as log: log.write(text)]. *)
Definition append_to_log (text : str) : M unit :=
  fun w =>
    let s := sink w in
    match sink_faults s with
    | Some failure :: rest =>
      (Raise (OSError failure),
       with_sink w {| console := console s; logfile := logfile s;
                      ticks := ticks s; clock := clock s;
                      sink_faults := rest |})
    | faults =>
      (Ok tt,
       with_sink w {| console := console s; logfile := logfile s ++ [text];
                      ticks := ticks s; clock := clock s;
                      sink_faults := tl faults |})
    end.

(** [client_socket.getpeername()]. *)
Definition getpeername (c : client_socket) : M (str * Z) :=
  match peername c with
  | inl a => ret a
  | inr failure => raise (OSError failure)
  end.

(** [client_socket.send(data)]; the program ignores the returned count. *)
Definition send (data : bytes) : M unit :=
  fun w =>
    let c := conn w in
    match send_faults c with
    | Some failure :: rest =>
      (Raise (OSError failure),
       with_conn w {| sent := sent c; send_faults := rest;
                      closed := closed c |})
    | faults =>
      (Ok tt,
       with_conn w {| sent := sent c ++ [data]; send_faults := tl faults;
                      closed := closed c |})
    end.

(** [client_socket.close()]. *)
Definition close : M unit :=
  fun w =>
    let c := conn w in
    (Ok tt, with_conn w {| sent := sent c; send_faults := send_faults c;
                           closed := true |}).

(** [s.encode()]. *)
Definition encode (rt : runtime) (s : str) : M bytes :=
  match encode_utf8 s with
  | Some b => ret b
  | None => raise (UnicodeEncodeError (encode_error_text rt s))
  end.

(** ** The program *)

Definition CR : ascii := ascii_of_nat 13.
Definition LF : ascii := ascii_of_nat 10.
Definition CRLF : string := String CR (String LF EmptyString).

(** A [b"..."] literal. *)
Definition blit (s : string) : bytes :=
  map byte_of_ascii (list_ascii_of_string s).

(** *** Configuration *)

Definition HONEYPOTS : list honeypot_config :=
  [ {| port := 21; name := lit "FTP";
       banner := lit ("220 FTP Ready." ++ CRLF) |};
    {| port := 22; name := lit "SSH";
       banner := lit ("SSH-2.0-OpenSSH_8.4" ++ CRLF) |};
    {| port := 80; name := lit "HTTP";
       banner := lit ("HTTP/1.1 200 OK" ++ CRLF
                      ++ "Content-Type: text/html" ++ CRLF ++ CRLF) |};
    {| port := 3389; name := lit "RDP";
       banner := [0x03; 0x00; 0x00; 0x0b; 0x06; 0xd0; 0x00; 0x00; 0x12;
                  52; 0x00]%N |} ].

Definition BIND_IP : str := lit "0.0.0.0".

(** *** The messages the program formats (its f-strings) *)

Definition msg_new_connection (service_name client_ip : str) (client_port : Z)
  : str :=
  lit "NEW_CONNECTION " ++ service_name ++ lit " - IP: " ++ client_ip
  ++ lit ":" ++ str_of_int client_port.

Definition msg_data (service_name client_ip received_data : str) : str :=
  lit "DATA " ++ service_name ++ lit " - " ++ client_ip ++ lit " -> "
  ++ received_data.

Definition msg_error (service_name client_ip : str) (e : exn) : str :=
  lit "ERROR " ++ service_name ++ lit " - " ++ client_ip ++ lit ": "
  ++ str_of_exn e.

Definition msg_closed (service_name client_ip : str) (client_port : Z) : str :=
  lit "CLOSED " ++ service_name ++ lit " - IP: " ++ client_ip
  ++ lit ":" ++ str_of_int client_port.

Definition msg_listening (cfg : honeypot_config) : str :=
  lit "LISTENING - " ++ name cfg ++ lit " honeypot on port "
  ++ str_of_int (port cfg).

Definition msg_fatal (cfg : honeypot_config) (e : exn) : str :=
  lit "FATAL - Failed to start " ++ name cfg ++ lit " on "
  ++ str_of_int (port cfg) ++ lit ": " ++ str_of_exn e.

(** *** [get_timestamp] and [log_event] *)

Definition get_timestamp : M str := read_clock.

(** [f"[{timestamp}] {message}"]. *)
Definition log_entry (timestamp message : str) : str :=
  lit "[" ++ timestamp ++ lit "] " ++ message.

Definition newline : str := [10%N].

Definition log_event (message : str) : M unit :=
  timestamp <- get_timestamp ;;
  print (log_entry timestamp message) ;;
  append_to_log (log_entry timestamp message ++ newline).

(** *** [setup_logging]

    The header is written inside one [with open(LOG_FILE, "a")] block.
    The block can fail in two places: at [open], before anything else has
    run, and when it closes the file, which is when the three texts, held
    in the buffer of the file object since their [write] calls, go to the
    file; the clock is read in between.  A failure at either place takes
    the next outcome of [sink_faults]. *)

Definition LOG_FILE : str := lit "honeypot.log".

(** [open(LOG_FILE, "a")]. *)
Definition open_log : M unit :=
  fun w =>
    let s := sink w in
    match sink_faults s with
    | Some failure :: rest =>
      (Raise (OSError failure),
       with_sink w {| console := console s; logfile := logfile s;
                      ticks := ticks s; clock := clock s;
                      sink_faults := rest |})
    | faults =>
      (Ok tt,
       with_sink w {| console := console s; logfile := logfile s;
                      ticks := ticks s; clock := clock s;
                      sink_faults := tl faults |})
    end.

(** The end of the [with] block: the texts passed to [log.write] in the
    block are flushed to the file, which is closed.  When that fails
    nothing is appended. *)
Definition close_log (buffered : list str) : M unit :=
  fun w =>
    let s := sink w in
    match sink_faults s with
    | Some failure :: rest =>
      (Raise (OSError failure),
       with_sink w {| console := console s; logfile := logfile s;
                      ticks := ticks s; clock := clock s;
                      sink_faults := rest |})
    | faults =>
      (Ok tt,
       with_sink w {| console := console s; logfile := logfile s ++ buffered;
                      ticks := ticks s; clock := clock s;
                      sink_faults := tl faults |})
    end.

(** [", ".join(items)]. *)
Fixpoint join_comma (items : list str) : str :=
  match items with
  | [] => []
  | [x] => x
  | x :: rest => x ++ lit ", " ++ join_comma rest
  end.

(** How an f-string shows a list of [int]s. *)
Definition repr_int_list (l : list Z) : str :=
  lit "[" ++ join_comma (map str_of_int l) ++ lit "]".

Definition header_started (timestamp : str) : str :=
  newline ++ lit "--- LogWeaver Honeypot Started [" ++ timestamp
  ++ lit "] ---" ++ newline.

Definition header_ports (table : list honeypot_config) : str :=
  lit "Listening on ports: " ++ repr_int_list (map port table) ++ newline.

Definition header_rule : str := lit "---" ++ newline.

Definition started_line : str :=
  lit "[*] LogWeaver started. Logging to " ++ LOG_FILE.

Definition setup_logging : M unit :=
  open_log ;;
  timestamp <- get_timestamp ;;
  close_log [header_started timestamp; header_ports HONEYPOTS; header_rule] ;;
  print started_line.

(** *** [handle_connection] *)

(** Lines 62-65: the text that is logged and matched for a chunk. *)
Definition received_data_of (data : bytes) : str :=
  match decode_utf8 data with
  | Some text => strip text
  | None => hex data
  end.

Definition ssh_reply : bytes := blit "Password: ".
Definition ftp_reply : bytes :=
  blit ("331 Please specify the password." ++ CRLF).
Definition http_reply : bytes :=
  blit "<html><body><h1>It works!</h1></body></html>".

(** Lines 69-76: the interaction logic. *)
Definition react (rt : runtime) (service_name received_data : str)
  : M control :=
  if str_eqb service_name (lit "SSH")
     && contains (lit "ssh") (lower (unicode_lower rt) received_data)
  then send ssh_reply ;; ret Continue
  else if str_eqb service_name (lit "FTP")
          && contains (lit "USER") received_data
  then send ftp_reply ;; ret Continue
  else if str_eqb service_name (lit "HTTP")
  then send http_reply ;; ret Break
  else ret Continue.

(** Lines 61-76: what is done with one non-empty chunk. *)
Definition on_chunk (rt : runtime) (service_name client_ip : str)
           (data : bytes) : M control :=
  let received_data := received_data_of data in
  log_event (msg_data service_name client_ip received_data) ;;
  react rt service_name received_data.

(** Lines 56-76: the receive loop, over the results of the [recv] calls. *)
Fixpoint recv_loop (rt : runtime) (service_name client_ip : str)
         (results : list recv_result) : M unit :=
  match results with
  | [] => ret tt
  | RecvFails failure :: _ => raise (OSError failure)
  | Received [] :: _ => ret tt
  | Received data :: rest =>
    c <- on_chunk rt service_name client_ip data ;;
    match c with
    | Break => ret tt
    | Continue => recv_loop rt service_name client_ip rest
    end
  end.

(** Lines 52-53. *)
Definition send_banner (rt : runtime) (honeypot_config : honeypot_config)
  : M unit :=
  match banner honeypot_config with
  | [] => ret tt
  | text => b <- encode rt text ;; send b
  end.

Definition handle_connection (rt : runtime) (client_socket : client_socket)
           (honeypot_config : honeypot_config) : M unit :=
  let service_name := name honeypot_config in
  peer <- getpeername client_socket ;;
  let '(client_ip, client_port) := peer in
  log_event (msg_new_connection service_name client_ip client_port) ;;
  try_finally
    (try_except
       (send_banner rt honeypot_config ;;
        recv_loop rt service_name client_ip (incoming client_socket))
       (fun e => log_event (msg_error service_name client_ip e)))
    (close ;;
     log_event (msg_closed service_name client_ip client_port)).

(** *** [start_honeypot] *)

(** The result of one [accept] on the listening socket. *)
Inductive accept_result :=
| Accepted (c : client_socket)
| AcceptFails (text : str).

(** What the operating system answers to the listener: the failure, if
    any, of creating the socket, of [setsockopt], of [bind] and of
    [listen], and the results of the successive [accept] calls; after the
    last one no client ever comes and [accept] waits. *)
Record network := {
  socket_fault : option str;
  setsockopt_fault : option str;
  bind_fault : option str;
  listen_fault : option str;
  arrivals : list accept_result
}.

Definition fail_with (fault : option str) : M unit :=
  match fault with
  | Some failure => raise (OSError failure)
  | None => ret tt
  end.

Definition set_listener (f : listener_state -> listener_state) : M unit :=
  fun w => (Ok tt, with_listener w (f (listener w))).

(** [server_socket.bind(server_address)]. *)
Definition server_bind (net : network) (server_address : str * Z) : M unit :=
  fail_with (bind_fault net) ;;
  set_listener (fun l => {| bound := Some server_address;
                            listening := listening l;
                            server_closed := server_closed l;
                            spawned := spawned l |}).

(** [server_socket.listen(5)]. *)
Definition server_listen (net : network) : M unit :=
  fail_with (listen_fault net) ;;
  set_listener (fun l => {| bound := bound l; listening := true;
                            server_closed := server_closed l;
                            spawned := spawned l |}).

(** [server_socket.close()]. *)
Definition server_close : M unit :=
  set_listener (fun l => {| bound := bound l; listening := listening l;
                            server_closed := true;
                            spawned := spawned l |}).

(** Lines 98-103: a daemon thread is started on [handle_connection]; the
    session then runs on its own. *)
Definition start_thread (c : client_socket) (cfg : honeypot_config) : M unit :=
  set_listener (fun l => {| bound := bound l; listening := listening l;
                            server_closed := server_closed l;
                            spawned := spawned l ++ [(c, cfg)] |}).

(** Lines 95-103: the accept loop. *)
Fixpoint accept_loop (honeypot_config : honeypot_config)
         (results : list accept_result) : M unit :=
  match results with
  | [] => blocked
  | AcceptFails failure :: _ => raise (OSError failure)
  | Accepted c :: rest =>
    start_thread c honeypot_config ;;
    accept_loop honeypot_config rest
  end.

Definition start_honeypot (net : network) (honeypot_config : honeypot_config)
  : M unit :=
  fail_with (socket_fault net) ;;
  fail_with (setsockopt_fault net) ;;
  let server_address := (BIND_IP, port honeypot_config) in
  try_finally
    (try_except
       (server_bind net server_address ;;
        server_listen net ;;
        log_event (msg_listening honeypot_config) ;;
        accept_loop honeypot_config (arrivals net))
       (fun e => log_event (msg_fatal honeypot_config e)))
    server_close.

(** ** Vocabulary of the properties *)

(** The kind of an event is the first word of its message. *)
Inductive kind :=
| NEW_CONNECTION | DATA | ERROR | CLOSED | LISTENING | FATAL.

Fixpoint first_word (message : str) : str :=
  match message with
  | [] => []
  | c :: t => if (c =? 32)%N then [] else c :: first_word t
  end.

Definition kind_of (message : str) : option kind :=
  let w := first_word message in
  if str_eqb w (lit "NEW_CONNECTION") then Some NEW_CONNECTION
  else if str_eqb w (lit "DATA") then Some DATA
  else if str_eqb w (lit "ERROR") then Some ERROR
  else if str_eqb w (lit "CLOSED") then Some CLOSED
  else if str_eqb w (lit "LISTENING") then Some LISTENING
  else if str_eqb w (lit "FATAL") then Some FATAL
  else None.



(** The sink accepts every write still to come. *)
Definition healthy (s : sink_state) : Prop :=
  Forall (fun f => f = None) (sink_faults s).

(** The sink after one event has been recorded in full: one more line on
    the console, the same line and a newline appended to the file, the
    clock read once. *)
Definition recorded (message : str) (s : sink_state) : sink_state :=
  {| console := console s ++ [log_entry (clock s (ticks s)) message];
     logfile := logfile s ++ [log_entry (clock s (ticks s)) message ++ newline];
     ticks := S (ticks s);
     clock := clock s;
     sink_faults := tl (sink_faults s) |}.

Definition recorded_all (messages : list str) (s : sink_state) : sink_state :=
  fold_left (fun acc m => recorded m acc) messages s.

(** The lines that recording [messages] produces, from clock reading
    number [t] on. *)
Fixpoint entries (clk : nat -> str) (t : nat) (messages : list str)
  : list str :=
  match messages with
  | [] => []
  | m :: rest => log_entry (clk t) m :: entries clk (S t) rest
  end.

(** The characters of [bytes.hex()]. *)
Definition is_hex_char (c : N) : bool :=
  in_range 48 57 c || in_range 97 102 c.

(** Substring test without regard to (ASCII) letter case, as the
    specification words the triggers. *)
Definition contains_nocase (needle hay : str) : bool :=
  contains (map ascii_lower needle) (map ascii_lower hay).

(** A world in which nothing has happened yet. *)
Definition fresh_sink (clk : nat -> str) (faults : list (option str))
  : sink_state :=
  {| console := []; logfile := []; ticks := 0; clock := clk;
     sink_faults := faults |}.

Definition fresh_world (clk : nat -> str) (faults : list (option str))
           (send_outcomes : list (option str)) : world :=
  {| sink := fresh_sink clk faults;
     conn := {| sent := []; send_faults := send_outcomes; closed := false |};
     listener := {| bound := None; listening := false;
                    server_closed := false; spawned := [] |} |}.

(** A clock and a runtime to run examples with. *)
Definition noon : nat -> str := fun _ => lit "2024-01-01 12:00:00".
Definition ascii_runtime : runtime :=
  {| unicode_lower := fun s => s;
     encode_error_text := fun _ => lit "surrogates not allowed" |}.

(** The four profiles of [HONEYPOTS], by position. *)
Definition no_profile : honeypot_config :=
  {| port := 0; name := []; banner := [] |}.
Definition FTP : honeypot_config := nth 0 HONEYPOTS no_profile.
Definition SSH : honeypot_config := nth 1 HONEYPOTS no_profile.
Definition HTTP : honeypot_config := nth 2 HONEYPOTS no_profile.
Definition RDP : honeypot_config := nth 3 HONEYPOTS no_profile.

(** The peer of the examples. *)
Definition peer_of (results : list recv_result) : client_socket :=
  {| peername := inl (lit "10.0.0.7", 40000%Z); incoming := results |}.

(** The sink after an event whose write to the file failed: the line is on
    the console, the clock was read, the file is as it was. *)
Definition printed (message : str) (s : sink_state) : sink_state :=
  {| console := console s ++ [log_entry (clock s (ticks s)) message];
     logfile := logfile s;
     ticks := S (ticks s);
     clock := clock s;
     sink_faults := tl (sink_faults s) |}.

(** The next [send] goes through. *)
Definition next_send_ok (c : conn_state) : Prop :=
  hd None (send_faults c) = None.

(** Every [send] still to come goes through. *)
Definition sends_ok (c : conn_state) : Prop :=
  Forall (fun f => f = None) (send_faults c).

(** The connection after a [send] that went through. *)
Definition after_send (data : bytes) (c : conn_state) : conn_state :=
  {| sent := sent c ++ [data]; send_faults := tl (send_faults c);
     closed := closed c |}.

(** The first [recv] of the connection returns no byte: the peer has gone
    without sending anything. *)
Definition first_read_empty (results : list recv_result) : Prop :=
  match results with
  | [] => True
  | Received [] :: _ => True
  | _ => False
  end.

(** The greeting, if there is one, reaches the socket (so that the session
    gets to its first [recv]). *)
Definition greeting_goes_out (cfg : honeypot_config) (c : conn_state) : Prop :=
  banner cfg = []
  \/ ((exists b, encode_utf8 (banner cfg) = Some b) /\ next_send_ok c).


(** [w'] differs from [w] at most in what was sent on the connection. *)
Definition quiet (w w' : world) : Prop :=
  sink w' = sink w /\ listener w' = listener w
  /\ closed (conn w') = closed (conn w).


(** The bytes of the HTTP greeting. *)
Definition http_greeting : bytes :=
  blit ("HTTP/1.1 200 OK" ++ CRLF ++ "Content-Type: text/html" ++ CRLF ++ CRLF).

(** A network on which the listener starts without trouble. *)
Definition calm_network (results : list accept_result) : network :=
  {| socket_fault := None; setsockopt_fault := None; bind_fault := None;
     listen_fault := None; arrivals := results |}.

(** The next write to the log file goes through. *)
Definition next_write_ok (s : sink_state) : Prop :=
  hd None (sink_faults s) = None.



(** The [DATA] messages of some chunks, in order. *)
Definition data_events (service_name client_ip : str) (chunks : list bytes)
  : list str :=
  map (fun d => msg_data service_name client_ip (received_data_of d)) chunks.

(** From [w] to [w'] nothing was taken back: the console, the log file and
    the data sent have only grown, every text added to the file is a line
    added to the console with a newline after it, and a closed socket
    stays closed. *)
Definition grows (w w' : world) : Prop :=
  exists lines texts out,
    console (sink w') = console (sink w) ++ lines
    /\ logfile (sink w') = logfile (sink w) ++ texts
    /\ sent (conn w') = sent (conn w) ++ out
    /\ (forall t, In t texts -> exists l, In l lines /\ t = l ++ newline)
    /\ (closed (conn w) = true -> closed (conn w') = true)
    /\ (server_closed (listener w) = true
        -> server_closed (listener w') = true).

(** [m] takes nothing back, whatever the world it runs in. *)
Definition keeps {A} (m : M A) : Prop :=
  forall w, grows w (snd (m w)).

(** The sink after [setup_logging] has written the header. *)
Definition header_written (s : sink_state) : sink_state :=
  {| console := console s ++ [started_line];
     logfile := logfile s
                ++ [header_started (clock s (ticks s));
                    header_ports HONEYPOTS; header_rule];
     ticks := S (ticks s);
     clock := clock s;
     sink_faults := tl (tl (sink_faults s)) |}.

(** The sink after an [open] that failed. *)
Definition refused (s : sink_state) : sink_state :=
  {| console := console s; logfile := logfile s; ticks := ticks s;
     clock := clock s; sink_faults := tl (sink_faults s) |}.

(** The sink after the header could not be flushed: the clock was read,
    the file and the console are as they were. *)
Definition unflushed (s : sink_state) : sink_state :=
  {| console := console s; logfile := logfile s; ticks := S (ticks s);
     clock := clock s; sink_faults := tl (tl (sink_faults s)) |}.

(** The number of characters of a string that are not ASCII. *)
Definition count_non_ascii (s : str) : nat :=
  List.length (filter (fun c => negb (is_ascii c)) s).

(** ** Facts about the string operations *)

Section StringFacts.

Lemma in_range_spec lo hi b :
  in_range lo hi b = true <-> (lo <= b /\ b <= hi)%N.
Proof.
  unfold in_range. rewrite andb_true_iff, !N.leb_le. tauto.
Qed.

Lemma startswith_app p t : startswith p (p ++ t) = true.
Proof.
  induction p as [|a p IH]; simpl; [reflexivity|].
  now rewrite N.eqb_refl, IH.
Qed.

Lemma startswith_inv p s :
  startswith p s = true -> exists t, s = p ++ t.
Proof.
  revert s. induction p as [|a p IH]; intros s H.
  - now exists s.
  - destruct s as [|b s]; simpl in H; [discriminate|].
    apply andb_true_iff in H. destruct H as [Hab Hps].
    apply N.eqb_eq in Hab. subst b.
    destruct (IH _ Hps) as [t ->]. now exists t.
Qed.

Lemma contains_startswith n h :
  startswith n h = true -> contains n h = true.
Proof.
  intros H. destruct h; simpl; now rewrite H.
Qed.

Lemma contains_intro n pre post : contains n (pre ++ n ++ post) = true.
Proof.
  induction pre as [|c pre IH].
  - change ([] ++ n ++ post) with (n ++ post).
    apply contains_startswith, startswith_app.
  - simpl. rewrite IH. apply orb_true_r.
Qed.


Lemma contains_inv n h :
  contains n h = true -> exists pre post, h = pre ++ n ++ post.
Proof.
  induction h as [|c h IH]; intros H.
  - simpl in H. rewrite orb_false_r in H.
    destruct (startswith_inv _ _ H) as [t Ht]. now exists [], t.
  - unfold contains in H; fold contains in H.
    apply orb_true_iff in H. destruct H as [H|H].
    + destruct (startswith_inv _ _ H) as [t Ht]. now exists [], t.
    + destruct (IH H) as (pre & post & ->). now exists (c :: pre), post.
Qed.

Lemma contains_iff n h :
  contains n h = true <-> exists pre post, h = pre ++ n ++ post.
Proof.
  split; [apply contains_inv|].
  intros (pre & post & ->). apply contains_intro.
Qed.

(** A substring brings all its characters. *)
Lemma contains_In n h c : contains n h = true -> In c n -> In c h.
Proof.
  intros H Hc. apply contains_inv in H. destruct H as (pre & post & ->).
  apply in_or_app. right. apply in_or_app. now left.
Qed.

(** *** [hex] and [fromhex] *)

Lemma hex_byte_chars b : forallb is_hex_char (hex_byte b) = true.
Proof. destruct b; reflexivity. Qed.

Lemma hex_chars data : forallb is_hex_char (hex data) = true.
Proof.
  induction data as [|b data IH]; [reflexivity|].
  unfold hex in *. cbn [flat_map]. rewrite forallb_app, IH, hex_byte_chars.
  reflexivity.
Qed.



Lemma hex_length data : List.length (hex data) = 2 * List.length data.
Proof.
  induction data as [|b data IH]; [reflexivity|].
  unfold hex in *. cbn [flat_map]. rewrite length_app, IH. simpl. lia.
Qed.

Lemma is_hex_char_spec c :
  is_hex_char c = true <-> (48 <= c <= 57 \/ 97 <= c <= 102)%N.
Proof.
  unfold is_hex_char. rewrite orb_true_iff, !in_range_spec. tauto.
Qed.

Lemma hex_char_ascii c : is_hex_char c = true -> is_ascii c = true.
Proof.
  rewrite is_hex_char_spec. unfold is_ascii. rewrite N.ltb_lt. lia.
Qed.

Lemma hex_char_lower c : is_hex_char c = true -> ascii_lower c = c.
Proof.
  rewrite is_hex_char_spec. intros H. unfold ascii_lower.
  destruct (in_range 65 90 c) eqn:E; [|reflexivity].
  apply in_range_spec in E. lia.
Qed.

(** [lower] leaves the output of [hex] alone, whatever the Unicode tables. *)
Lemma lower_hex tbl data : lower tbl (hex data) = hex data.
Proof.
  unfold lower.
  pose proof (hex_chars data) as H. rewrite forallb_forall in H.
  replace (forallb is_ascii (hex data)) with true.
  - rewrite <- (map_id (hex data)) at 2.
    apply map_ext_in. intros c Hc. now apply hex_char_lower, H.
  - symmetry. apply forallb_forall. intros c Hc.
    now apply hex_char_ascii, H.
Qed.

(** No text made of hexadecimal digits contains a word with another
    character. *)
Lemma hex_contains_false needle data c :
  In c needle -> is_hex_char c = false -> contains needle (hex data) = false.
Proof.
  intros Hc Hn. destruct (contains needle (hex data)) eqn:E; [|reflexivity].
  pose proof (contains_In _ _ c E Hc) as Hin.
  pose proof (hex_chars data) as H. rewrite forallb_forall in H.
  rewrite (H _ Hin) in Hn. discriminate.
Qed.

(** *** [strip] *)

Lemma lstrip_split s :
  exists l, s = l ++ lstrip s /\ forallb isspace l = true.
Proof.
  induction s as [|c s (l & Hl & Hs)].
  - now exists [].
  - simpl. destruct (isspace c) eqn:E.
    + exists (c :: l). simpl. rewrite E, Hs. split; [now f_equal|reflexivity].
    + now exists [].
Qed.




Lemma lstrip_app_nonspace pre c rest :
  isspace c = false -> lstrip (pre ++ c :: rest) = lstrip pre ++ c :: rest.
Proof.
  intros H. induction pre as [|x pre IH].
  - simpl. now rewrite H.
  - simpl. destruct (isspace x); [exact IH|reflexivity].
Qed.

Lemma rstrip_app_nonspace pre c rest :
  isspace c = false -> rstrip (pre ++ c :: rest) = pre ++ c :: rstrip rest.
Proof.
  intros H. unfold rstrip.
  rewrite rev_app_distr. simpl rev. rewrite <- app_assoc. simpl app.
  rewrite lstrip_app_nonspace by exact H.
  rewrite rev_app_distr. simpl rev. rewrite rev_involutive.
  now rewrite <- app_assoc.
Qed.

Lemma rstrip_split s :
  exists r, s = rstrip s ++ r /\ forallb isspace r = true.
Proof.
  unfold rstrip. destruct (lstrip_split (rev s)) as (l & Hl & Hs).
  exists (rev l). split.
  - rewrite <- rev_app_distr, <- Hl. now rewrite rev_involutive.
  - rewrite forallb_forall in *. intros c Hc. apply Hs.
    now apply in_rev.
Qed.


(** [strip] cuts whitespace, and only whitespace, from both ends. *)
Lemma strip_split s :
  exists l r, s = l ++ strip s ++ r
              /\ forallb isspace l = true /\ forallb isspace r = true.
Proof.
  destruct (lstrip_split s) as (l & Hl & Hls).
  destruct (rstrip_split (lstrip s)) as (r & Hr & Hrs).
  exists l, r. unfold strip. now rewrite <- Hr.
Qed.



(** A word without whitespace is found in the stripped text exactly when it
    is found in the text. *)
Lemma contains_strip needle s :
  needle <> [] ->
  (forall c, In c needle -> isspace c = false) ->
  contains needle (strip s) = contains needle s.
Proof.
  intros Hne Hns.
  destruct (contains needle s) eqn:E.
  - apply contains_inv in E. destruct E as (pre & post & ->).
    destruct needle as [|a n']; [congruence|].
    destruct (exists_last Hne) as (n0 & z & Hz).
    assert (Ha : isspace a = false) by (apply Hns; now left).
    assert (Hzs : isspace z = false).
    { apply Hns. rewrite Hz. apply in_or_app. right. now left. }
    unfold strip. simpl app.
    rewrite lstrip_app_nonspace by exact Ha.
    change (a :: n' ++ post) with ((a :: n') ++ post). rewrite Hz.
    replace (lstrip pre ++ (n0 ++ [z]) ++ post)
      with ((lstrip pre ++ n0) ++ z :: post)
      by (rewrite <- !app_assoc; reflexivity).
    rewrite rstrip_app_nonspace by exact Hzs.
    replace ((lstrip pre ++ n0) ++ z :: rstrip post)
      with (lstrip pre ++ (n0 ++ [z]) ++ rstrip post)
      by (rewrite <- !app_assoc; reflexivity).
    apply contains_intro.
  - destruct (contains needle (strip s)) eqn:E'; [|reflexivity].
    apply contains_inv in E'. destruct E' as (pre & post & Hs).
    destruct (strip_split s) as (l & r & Hl & _).
    rewrite Hs in Hl.
    assert (contains needle s = true); [|congruence].
    rewrite Hl.
    replace (l ++ (pre ++ needle ++ post) ++ r)
      with ((l ++ pre) ++ needle ++ (post ++ r))
      by (rewrite <- !app_assoc; reflexivity).
    apply contains_intro.
Qed.

End StringFacts.

(** ** The event sink *)

Section SinkFacts.

Lemma kind_of_new_connection s i p :
  kind_of (msg_new_connection s i p) = Some NEW_CONNECTION.
Proof. reflexivity. Qed.




Lemma kind_of_listening cfg : kind_of (msg_listening cfg) = Some LISTENING.
Proof. reflexivity. Qed.

Lemma kind_of_fatal cfg e : kind_of (msg_fatal cfg e) = Some FATAL.
Proof. reflexivity. Qed.

Lemma healthy_cases s :
  healthy s ->
  sink_faults s = [] \/ exists rest, sink_faults s = None :: rest.
Proof.
  unfold healthy. intros H. destruct (sink_faults s) as [|f rest]; [now left|].
  right. inversion H; subst. now exists rest.
Qed.

(** [log_event] in full: the line is printed first; the write to the file
    decides how the call ends. *)
Lemma log_event_cases message w :
  log_event message w
  = match sink_faults (sink w) with
    | Some failure :: _ =>
      (Raise (OSError failure), with_sink w (printed message (sink w)))
    | _ => (Ok tt, with_sink w (recorded message (sink w)))
    end.
Proof.
  unfold log_event, get_timestamp, bind, read_clock, print, append_to_log,
    recorded, printed, with_sink. simpl.
  destruct (sink_faults (sink w)) as [|[f|] rest]; reflexivity.
Qed.

Lemma healthy_next s : healthy s -> next_write_ok s.
Proof.
  unfold healthy, next_write_ok. intros H.
  destruct (sink_faults s); [reflexivity|]. now inversion H.
Qed.

Lemma log_event_next message w :
  next_write_ok (sink w) ->
  log_event message w = (Ok tt, with_sink w (recorded message (sink w))).
Proof.
  intros H. rewrite log_event_cases. unfold next_write_ok in H.
  destruct (sink_faults (sink w)) as [|[f|] rest]; try discriminate;
    reflexivity.
Qed.

Lemma log_event_healthy message w :
  healthy (sink w) ->
  log_event message w = (Ok tt, with_sink w (recorded message (sink w))).
Proof.
  intros H. unfold log_event, get_timestamp, bind, read_clock, print,
    append_to_log, recorded, with_sink. simpl.
  destruct (healthy_cases _ H) as [E|(rest & E)]; rewrite E; reflexivity.
Qed.

Lemma recorded_healthy message s : healthy s -> healthy (recorded message s).
Proof.
  unfold healthy, recorded. simpl. intros H.
  destruct (sink_faults s); [constructor|]. now inversion H.
Qed.

Lemma recorded_all_healthy messages s :
  healthy s -> healthy (recorded_all messages s).
Proof.
  revert s. induction messages as [|m ms IH]; intros s H; [exact H|].
  apply IH, recorded_healthy, H.
Qed.

Lemma recorded_all_app ms ms' s :
  recorded_all (ms ++ ms') s = recorded_all ms' (recorded_all ms s).
Proof. apply fold_left_app. Qed.

Lemma recorded_all_clock ms s : clock (recorded_all ms s) = clock s.
Proof.
  revert s. induction ms as [|m ms IH]; intros s; [reflexivity|].
  simpl. now rewrite IH.
Qed.

Lemma recorded_all_ticks ms s :
  ticks (recorded_all ms s) = ticks s + List.length ms.
Proof.
  revert s. induction ms as [|m ms IH]; intros s; simpl; [lia|].
  rewrite IH. simpl. lia.
Qed.





End SinkFacts.

(** ** Sequencing, [except] and [finally] *)

Section MonadFacts.

Context {A B : Type}.

Lemma bind_ok (m : M A) (k : A -> M B) w a w' :
  m w = (Ok a, w') -> bind m k w = k a w'.
Proof. intros H. unfold bind. now rewrite H. Qed.

Lemma bind_raise (m : M A) (k : A -> M B) w e w' :
  m w = (Raise e, w') -> bind m k w = (Raise e, w').
Proof. intros H. unfold bind. now rewrite H. Qed.

Lemma try_except_ok (body : M A) handler w a w' :
  body w = (Ok a, w') -> try_except body handler w = (Ok a, w').
Proof. intros H. unfold try_except. now rewrite H. Qed.

Lemma try_except_raise (body : M A) handler w e w' :
  body w = (Raise e, w') -> try_except body handler w = handler e w'.
Proof. intros H. unfold try_except. now rewrite H. Qed.

Lemma try_finally_ok (body : M A) final w a w' w'' :
  body w = (Ok a, w') -> final w' = (Ok tt, w'') ->
  try_finally body final w = (Ok a, w'').
Proof. intros H H'. unfold try_finally. now rewrite H, H'. Qed.

End MonadFacts.

(** ** One session *)

Section SessionFacts.

Variable rt : runtime.

Lemma quiet_refl w : quiet w w.
Proof. now unfold quiet. Qed.

Lemma send_ok data w :
  next_send_ok (conn w) ->
  send data w = (Ok tt, with_conn w (after_send data (conn w))).
Proof.
  unfold next_send_ok, send, after_send.
  destruct (send_faults (conn w)) as [|[f|] rest]; simpl; intros H;
    try discriminate; reflexivity.
Qed.




Lemma on_chunk_recorded service_name client_ip data w :
  next_write_ok (sink w) ->
  on_chunk rt service_name client_ip data w
  = react rt service_name (received_data_of data)
          (with_sink w (recorded (msg_data service_name client_ip
                                           (received_data_of data))
                                 (sink w))).
Proof.
  intros H. unfold on_chunk, bind. now rewrite log_event_next.
Qed.

(** One turn of the receive loop on a chunk that is not empty. *)
Lemma recv_loop_step service_name client_ip b data rest w :
  next_write_ok (sink w) ->
  recv_loop rt service_name client_ip (Received (b :: data) :: rest) w
  = match react rt service_name (received_data_of (b :: data))
                (with_sink w (recorded (msg_data service_name client_ip
                                          (received_data_of (b :: data)))
                                       (sink w))) with
    | (Ok Continue, w') => recv_loop rt service_name client_ip rest w'
    | (Ok Break, w') => (Ok tt, w')
    | (Raise e, w') => (Raise e, w')
    | (Blocked, w') => (Blocked, w')
    end.
Proof.
  intros H. cbn [recv_loop]. unfold bind. rewrite on_chunk_recorded by exact H.
  destruct (react rt service_name _ _) as [[[]|e|] w']; reflexivity.
Qed.


End SessionFacts.

(** ** The life of a session *)

Section SessionLife.

Variable rt : runtime.




End SessionLife.

(** ** Reactions, chunk by chunk *)

Section Reactions.

Variable rt : runtime.



(** The three profiles with a reaction. *)
Lemma react_ssh received_data :
  react rt (lit "SSH") received_data
  = if contains (lit "ssh") (lower (unicode_lower rt) received_data)
    then (send ssh_reply ;; ret Continue)
    else ret Continue.
Proof. reflexivity. Qed.

Lemma react_ftp received_data :
  react rt (lit "FTP") received_data
  = if contains (lit "USER") received_data
    then (send ftp_reply ;; ret Continue)
    else ret Continue.
Proof. reflexivity. Qed.

Lemma react_http received_data :
  react rt (lit "HTTP") received_data = (send http_reply ;; ret Break).
Proof. reflexivity. Qed.

(** A text of hexadecimal digits triggers nothing outside HTTP. *)
Lemma react_hex_quiet service_name data w :
  str_eqb service_name (lit "HTTP") = false ->
  react rt service_name (hex data) w = (Ok Continue, w).
Proof.
  intros H. unfold react.
  rewrite lower_hex.
  rewrite (hex_contains_false (lit "ssh") data 115%N)
    by (simpl; auto).
  rewrite (hex_contains_false (lit "USER") data 85%N)
    by (simpl; auto).
  rewrite !andb_false_r, H. reflexivity.
Qed.

(** The session, once the peer address is known and [NEW_CONNECTION] is
    recorded. *)
Lemma handle_connection_unfold sock cfg w client_ip client_port :
  peername sock = inl (client_ip, client_port) ->
  next_write_ok (sink w) ->
  handle_connection rt sock cfg w
  = try_finally
      (try_except
         (send_banner rt cfg ;;
          recv_loop rt (name cfg) client_ip (incoming sock))
         (fun e => log_event (msg_error (name cfg) client_ip e)))
      (close ;; log_event (msg_closed (name cfg) client_ip client_port))
      (with_sink w
         (recorded (msg_new_connection (name cfg) client_ip client_port)
                   (sink w))).
Proof.
  intros Hp Hn. unfold handle_connection, getpeername. rewrite Hp.
  unfold bind at 1. unfold ret at 1.
  now rewrite (bind_ok _ _ w tt _ (log_event_next _ w Hn)).
Qed.

(** A greeting that goes out leaves everything else as it was. *)
Lemma send_banner_ok cfg w :
  greeting_goes_out cfg (conn w) ->
  send_banner rt cfg w = (Ok tt, snd (send_banner rt cfg w))
  /\ quiet w (snd (send_banner rt cfg w)).
Proof.
  unfold greeting_goes_out, send_banner.
  intros [E|((b & Eb) & Hs)].
  - rewrite E. split; [reflexivity | apply quiet_refl].
  - destruct (banner cfg) as [|c t]; [split; [reflexivity|apply quiet_refl]|].
    unfold encode, bind. rewrite Eb. unfold ret.
    rewrite (send_ok b w Hs). split; [reflexivity|].
    unfold quiet. simpl. auto.
Qed.

End Reactions.

(** ** What a session prints, whatever the state of the log file *)

Section SessionConsole.

Variable rt : runtime.












End SessionConsole.

(** ** Properties of the per-connection engine *)

Section Claims.

Variable rt : runtime.



End Claims.




(** ** The HTTP and FTP reactions *)

Section Profiles.

Variable rt : runtime.

Lemma sends_ok_next c : sends_ok c -> next_send_ok c.
Proof.
  unfold sends_ok, next_send_ok. intros H.
  destruct (send_faults c); [reflexivity|]. now inversion H.
Qed.

Lemma sends_ok_after data c : sends_ok c -> sends_ok (after_send data c).
Proof.
  unfold sends_ok, after_send. simpl. intros H.
  destruct (send_faults c); [constructor|]. now inversion H.
Qed.

Lemma send_then_ok {A} data (a : A) w :
  next_send_ok (conn w) ->
  (send data ;; ret a) w = (Ok a, with_conn w (after_send data (conn w))).
Proof.
  intros H. now rewrite (bind_ok _ _ w tt _ (send_ok data w H)).
Qed.

Lemma http_greeting_encoded : encode_utf8 (banner HTTP) = Some http_greeting.
Proof. vm_compute. reflexivity. Qed.

(** C2, as the code has it.  On the HTTP profile the page is the reaction
    to the first chunk the client sends, whatever that chunk is: the session
    sends the greeting, waits for one non-empty chunk, records it, sends the
    page, and closes without another [recv] (what the peer would have sent
    next, [rest], plays no part). *)
Theorem http_answers_first_chunk sock w client_ip client_port b data rest :
  peername sock = inl (client_ip, client_port) ->
  incoming sock = Received (b :: data) :: rest ->
  healthy (sink w) ->
  sends_ok (conn w) ->
  fst (handle_connection rt sock HTTP w) = Ok tt
  /\ sent (conn (snd (handle_connection rt sock HTTP w)))
     = sent (conn w) ++ [http_greeting; http_reply]
  /\ sink (snd (handle_connection rt sock HTTP w))
     = recorded_all
         [msg_new_connection (name HTTP) client_ip client_port;
          msg_data (name HTTP) client_ip (received_data_of (b :: data));
          msg_closed (name HTTP) client_ip client_port]
         (sink w)
  /\ closed (conn (snd (handle_connection rt sock HTTP w))) = true.
Proof.
  intros Hp Hi Hh Hs.
  rewrite (handle_connection_unfold rt sock HTTP w _ _ Hp (healthy_next _ Hh)), Hi.
  set (w0 := with_sink w _).
  assert (Hh0 : healthy (sink w0)) by (apply recorded_healthy, Hh).
  (* the greeting *)
  set (w1 := with_conn w0 (after_send http_greeting (conn w0))).
  assert (E1 : send_banner rt HTTP w0 = (Ok tt, w1)).
  { unfold send_banner.
    destruct (banner HTTP) as [|c t] eqn:Eb; [discriminate|].
    rewrite <- Eb. unfold encode. rewrite http_greeting_encoded.
    rewrite (bind_ok _ _ w0 http_greeting w0 eq_refl).
    apply send_ok, sends_ok_next, Hs. }
  (* the first chunk *)
  set (rd := received_data_of (b :: data)).
  set (w2 := with_sink w1 (recorded (msg_data (name HTTP) client_ip rd)
                                    (sink w1))).
  set (w3 := with_conn w2 (after_send http_reply (conn w2))).
  assert (E2 : recv_loop rt (name HTTP) client_ip
                 (Received (b :: data) :: rest) w1 = (Ok tt, w3)).
  { rewrite recv_loop_step by exact (healthy_next _ Hh0).
    fold rd. fold w2. change (name HTTP) with (lit "HTTP").
    rewrite react_http.
    rewrite (send_then_ok http_reply Break w2); [reflexivity|].
    apply sends_ok_next. apply (sends_ok_after http_greeting _ Hs). }
  (* the end *)
  assert (Hh3 : healthy (sink w3)).
  { apply (recorded_healthy _ _ Hh0). }
  set (w4 := with_sink
               (with_conn w3 {| sent := sent (conn w3);
                                send_faults := send_faults (conn w3);
                                closed := true |})
               (recorded (msg_closed (name HTTP) client_ip client_port)
                         (sink w3))).
  assert (E3 : (close ;;
                log_event (msg_closed (name HTTP) client_ip client_port)) w3
               = (Ok tt, w4)).
  { unfold bind, close. now rewrite log_event_healthy by exact Hh3. }
  rewrite (try_finally_ok _ _ w0 tt w3 _
             (try_except_ok _ _ w0 tt w3 (eq_trans (bind_ok _ _ w0 tt w1 E1) E2))
             E3).
  repeat split. simpl. now rewrite <- app_assoc.
Qed.

(** C3, as the code has it.  On the FTP profile a chunk whose decoded text
    contains [USER] in capitals (the test regards case) is recorded and
    answered with the 331 line, and the loop goes on to the next [recv]:
    the connection stays open. *)
Theorem ftp_user_gets_331 client_ip data text rest w :
  decode_utf8 data = Some text ->
  contains (lit "USER") text = true ->
  next_write_ok (sink w) ->
  next_send_ok (conn w) ->
  let w' :=
    with_conn
      (with_sink w (recorded (msg_data (lit "FTP") client_ip (strip text))
                             (sink w)))
      (after_send ftp_reply (conn w)) in
  on_chunk rt (lit "FTP") client_ip data w = (Ok Continue, w')
  /\ recv_loop rt (lit "FTP") client_ip (Received data :: rest) w
     = recv_loop rt (lit "FTP") client_ip rest w'
  /\ sent (conn w') = sent (conn w) ++ [ftp_reply]
  /\ closed (conn w') = closed (conn w).
Proof.
  intros Hd Hu Hh Hs. cbv zeta.
  assert (Hrd : received_data_of data = strip text).
  { unfold received_data_of. now rewrite Hd. }
  assert (Hc : contains (lit "USER") (strip text) = true).
  { rewrite contains_strip; [exact Hu|discriminate|].
    intros c [<-|[<-|[<-|[<-|[]]]]]; reflexivity. }
  assert (E : on_chunk rt (lit "FTP") client_ip data w
              = (Ok Continue,
                 with_conn
                   (with_sink w (recorded (msg_data (lit "FTP") client_ip
                                             (strip text)) (sink w)))
                   (after_send ftp_reply (conn w)))).
  { rewrite on_chunk_recorded by exact Hh. rewrite Hrd, react_ftp, Hc.
    now rewrite send_then_ok. }
  split; [exact E|]. split; [|split; reflexivity].
  destruct data as [|b d].
  - unfold decode_utf8 in Hd. simpl in Hd. injection Hd as <-. discriminate.
  - cbn [recv_loop]. now rewrite (bind_ok _ _ w Continue _ E).
Qed.

End Profiles.

(** C2 refuted as worded: a client that connects to the HTTP profile and
    sends nothing is never sent the page, on any runtime; the session ends
    with the greeting alone on the wire. *)
Lemma http_silent_peer_gets_no_page :
  (~ exists rt,
       In http_reply
          (sent (conn (snd (handle_connection rt (peer_of []) HTTP
                                              (fresh_world noon [] []))))))
  /\ handle_connection ascii_runtime (peer_of []) HTTP (fresh_world noon [] [])
     = (Ok tt,
        {| sink := recorded_all
                     [msg_new_connection (name HTTP) (lit "10.0.0.7") 40000;
                      msg_closed (name HTTP) (lit "10.0.0.7") 40000]
                     (fresh_sink noon []);
           conn := {| sent := [http_greeting]; send_faults := [];
                      closed := true |};
           listener := listener (fresh_world noon [] []) |}).
Proof.
  split.
  - intros [rt H]. vm_compute in H. destruct H as [H|[]]. discriminate H.
  - vm_compute. reflexivity.
Qed.

(** C2 as amended, at work. *)
Lemma http_answers_first_chunk_witness :
  sent (conn (snd (handle_connection ascii_runtime
                     (peer_of [Received (blit "GET / HTTP/1.0");
                               Received (blit "never read")])
                     HTTP (fresh_world noon [] []))))
  = [http_greeting; http_reply]
  /\ closed (conn (snd (handle_connection ascii_runtime
                     (peer_of [Received (blit "GET / HTTP/1.0");
                               Received (blit "never read")])
                     HTTP (fresh_world noon [] [])))) = true.
Proof.
  destruct (http_answers_first_chunk ascii_runtime
              (peer_of [Received (blit "GET / HTTP/1.0");
                        Received (blit "never read")])
              (fresh_world noon [] []) (lit "10.0.0.7") 40000
              "G"%byte (blit "ET / HTTP/1.0") [Received (blit "never read")]
              eq_refl eq_refl (Forall_nil _) (Forall_nil _))
    as (_ & H2 & _ & H4).
  split; [exact H2|exact H4].
Defined.

(** C3 refuted as worded: [user admin] in small letters contains the
    trigger when case is disregarded, and the FTP session never sends the
    331 line, on any runtime. *)
Lemma ftp_lowercase_user_gets_no_reply :
  (exists text,
      decode_utf8 (blit ("user admin" ++ CRLF)) = Some text
      /\ contains_nocase (lit "USER") text = true)
  /\ ~ exists rt,
         In ftp_reply
            (sent (conn (snd (handle_connection rt
                                (peer_of [Received (blit ("user admin" ++ CRLF))])
                                FTP (fresh_world noon [] []))))).
Proof.
  split.
  - eexists. split; vm_compute; reflexivity.
  - intros [rt H]. vm_compute in H. destruct H as [H|[]]. discriminate H.
Qed.

(** C3 as amended, at work. *)
Lemma ftp_user_gets_331_witness :
  on_chunk ascii_runtime (lit "FTP") (lit "10.0.0.7")
           (blit ("USER admin" ++ CRLF)) (fresh_world noon [] [])
  = (Ok Continue,
     with_conn
       (with_sink (fresh_world noon [] [])
          (recorded (msg_data (lit "FTP") (lit "10.0.0.7") (lit "USER admin"))
                    (fresh_sink noon [])))
       (after_send ftp_reply (conn (fresh_world noon [] [])))).
Proof.
  exact (proj1 (ftp_user_gets_331 ascii_runtime (lit "10.0.0.7")
                  (blit ("USER admin" ++ CRLF))
                  (lit ("USER admin" ++ CRLF)) []
                  (fresh_world noon [] [])
                  eq_refl eq_refl eq_refl eq_refl)).
Defined.

(** ** What is logged for a chunk, and what a binary chunk triggers *)

Section Payloads.

Variable rt : runtime.


(** C4, as the code has it.  [log_event] prints the line and then appends
    it to the log file, with no handler of its own: when the append fails
    the failure is raised to the caller, the line having been printed and
    the file left as it was; otherwise the call returns, with the line on
    the console and in the file. *)
Theorem log_event_outcome message w :
  log_event message w
  = match sink_faults (sink w) with
    | Some failure :: _ =>
      (Raise (OSError failure), with_sink w (printed message (sink w)))
    | _ => (Ok tt, with_sink w (recorded message (sink w)))
    end.
Proof.
  unfold log_event, get_timestamp, bind.
  destruct (read_clock w) as [r w1] eqn:Ec. unfold read_clock in Ec.
  injection Ec as <- <-.
  unfold print, append_to_log, recorded, printed, with_sink. simpl.
  destruct (sink_faults (sink w)) as [|[failure|] rest]; reflexivity.
Qed.







(** C10.  The triggers are tried on the logged text.  For a chunk that is
    not valid UTF-8 that text is made of the characters [0-9a-f]; it
    triggers nothing on SSH, on FTP, or on any service but HTTP (nothing is
    sent, the loop goes on), whereas on HTTP, where the reaction looks at
    no text at all, the page is sent and the loop ends. *)
Theorem binary_chunk_reactions data :
  decode_utf8 data = None ->
  received_data_of data = hex data
  /\ forallb is_hex_char (received_data_of data) = true
  /\ (forall service_name w,
         str_eqb service_name (lit "HTTP") = false ->
         react rt service_name (received_data_of data) w = (Ok Continue, w))
  /\ (forall w, react rt (name SSH) (received_data_of data) w
                = (Ok Continue, w))
  /\ (forall w, react rt (name FTP) (received_data_of data) w
                = (Ok Continue, w))
  /\ (forall service_name client_ip w,
         str_eqb service_name (lit "HTTP") = false ->
         sent (conn (snd (on_chunk rt service_name client_ip data w)))
         = sent (conn w))
  /\ (forall text w,
         react rt (name HTTP) text w = (send http_reply ;; ret Break) w)
  /\ (forall client_ip w,
         next_write_ok (sink w) -> next_send_ok (conn w) ->
         fst (on_chunk rt (name HTTP) client_ip data w) = Ok Break
         /\ sent (conn (snd (on_chunk rt (name HTTP) client_ip data w)))
            = sent (conn w) ++ [http_reply]).
Proof.
  intros Hd.
  assert (Hrd : received_data_of data = hex data).
  { unfold received_data_of. now rewrite Hd. }
  rewrite Hrd.
  split; [reflexivity|].
  split; [apply hex_chars|].
  split; [intros s w H; now apply react_hex_quiet|].
  split; [intros w; now apply react_hex_quiet|].
  split; [intros w; now apply react_hex_quiet|].
  split.
  { intros s ip w H. unfold on_chunk, bind. rewrite log_event_cases, Hrd.
    destruct (sink_faults (sink w)) as [|[f|] rest];
      try rewrite (react_hex_quiet rt s data _ H); reflexivity. }
  split; [intros text w; reflexivity|].
  intros ip w Hh Hs. rewrite on_chunk_recorded by exact Hh.
  change (name HTTP) with (lit "HTTP"). rewrite react_http.
  rewrite send_then_ok by exact Hs. split; reflexivity.
Qed.

End Payloads.

(** C4 refuted as worded: with the disk full, [log_event] raises to its
    caller; and a listener whose [LISTENING] record fails gives up (it
    records [FATAL], closes its socket and returns) although a client was
    waiting to be accepted. *)
Lemma log_failure_reaches_the_caller :
  fst (log_event (lit "hello")
                 (fresh_world noon [Some (lit "No space left on device")] []))
  = Raise (OSError (lit "No space left on device"))
  /\ (let w' := snd (start_honeypot (calm_network [Accepted (peer_of [])]) FTP
                       (fresh_world noon
                                    [Some (lit "No space left on device")] []))
      in spawned (listener w') = []
         /\ server_closed (listener w') = true
         /\ console (sink w')
            = entries noon 0
                [msg_listening FTP;
                 msg_fatal FTP (OSError (lit "No space left on device"))]).
Proof. split; vm_compute; repeat split; reflexivity. Qed.



(** C10 at work: [ff 53 53 48], which holds the bytes of [SSH]. *)
Lemma binary_chunk_reactions_witness :
  decode_utf8 ["255"%byte; "083"%byte; "083"%byte; "072"%byte] = None
  /\ forall w,
       react ascii_runtime (name SSH)
             (received_data_of ["255"%byte; "083"%byte; "083"%byte; "072"%byte])
             w
       = (Ok Continue, w).
Proof.
  split; [reflexivity|].
  destruct (binary_chunk_reactions ascii_runtime
              ["255"%byte; "083"%byte; "083"%byte; "072"%byte] eq_refl)
    as (_ & _ & _ & H & _).
  exact H.
Defined.

(** ** One listener *)

Section Listener.




End Listener.


(** ** Further properties of the session and of the listener *)

Section Further.

Variable rt : runtime.

(** X1.  When the address of the peer cannot be read, the exception leaves
    [handle_connection] before anything is recorded or sent, and the socket
    is not closed. *)
Theorem unknown_peer_leaves_no_trace sock cfg w failure :
  peername sock = inr failure ->
  handle_connection rt sock cfg w = (Raise (OSError failure), w).
Proof.
  intros H. unfold handle_connection, getpeername. rewrite H. reflexivity.
Qed.

(** X2.  When the record of [NEW_CONNECTION] fails, the exception leaves
    [handle_connection] before its [try] block: the line is on the console,
    no [CLOSED] event follows, nothing is sent and the socket is not
    closed. *)
Theorem unrecorded_session_is_dropped sock cfg w client_ip client_port
        failure rest :
  peername sock = inl (client_ip, client_port) ->
  sink_faults (sink w) = Some failure :: rest ->
  handle_connection rt sock cfg w
  = (Raise (OSError failure),
     with_sink w (printed (msg_new_connection (name cfg) client_ip client_port)
                          (sink w))).
Proof.
  intros Hp Hf. unfold handle_connection, getpeername. rewrite Hp.
  unfold bind at 1. unfold ret at 1.
  apply bind_raise. rewrite log_event_cases, Hf. reflexivity.
Qed.

(** X3.  At most one reaction fires for a chunk: [react] passes at most
    one reply to [send]. *)
Theorem one_reaction_per_chunk service_name received_data w :
  sent (conn (snd (react rt service_name received_data w))) = sent (conn w)
  \/ exists reply,
       sent (conn (snd (react rt service_name received_data w)))
       = sent (conn w) ++ [reply].
Proof.
  unfold react, bind, ret.
  repeat match goal with
         | |- context [if ?c then _ else _] => destruct c
         end;
    try (left; reflexivity);
    match goal with
    | |- context [send ?d w] =>
      unfold send; destruct (send_faults (conn w)) as [|[f|] more]; simpl;
        [right; now exists d | left; reflexivity | right; now exists d]
    end.
Qed.

(** X4.  On the SSH profile the trigger disregards the case of ASCII
    letters: a text of ASCII characters that contains [ssh] in any mix of
    cases is answered with the password prompt, and the loop goes on. *)
Theorem ssh_trigger_any_case received_data w :
  forallb is_ascii received_data = true ->
  contains_nocase (lit "ssh") received_data = true ->
  react rt (name SSH) received_data w = (send ssh_reply ;; ret Continue) w.
Proof.
  intros Ha Hc. change (name SSH) with (lit "SSH"). rewrite react_ssh.
  unfold lower. rewrite Ha.
  unfold contains_nocase in Hc.
  change (map ascii_lower (lit "ssh")) with (lit "ssh") in Hc.
  now rewrite Hc.
Qed.

Lemma accept_loop_all cfg socks :
  forall w,
    accept_loop cfg (map Accepted socks) w
    = (Blocked,
       with_listener w
         {| bound := bound (listener w);
            listening := listening (listener w);
            server_closed := server_closed (listener w);
            spawned := spawned (listener w)
                       ++ map (fun c => (c, cfg)) socks |}).
Proof.
  induction socks as [|c socks IH]; intros w.
  - simpl. unfold blocked, with_listener. rewrite app_nil_r.
    destruct w as [s c l]. destruct l. reflexivity.
  - cbn [map accept_loop]. unfold bind, start_thread, set_listener.
    rewrite IH. unfold with_listener. simpl. now rewrite <- app_assoc.
Qed.

(** X5.  A listener that starts without trouble records [LISTENING] once,
    before it accepts anything, then hands every accepted connection, in
    order, to a thread of its own, and stays in [accept]: it never returns
    and its socket stays open. *)
Theorem listener_dispatches_every_arrival cfg w socks :
  next_write_ok (sink w) ->
  start_honeypot (calm_network (map Accepted socks)) cfg w
  = (Blocked,
     {| sink := recorded (msg_listening cfg) (sink w);
        conn := conn w;
        listener :=
          {| bound := Some (BIND_IP, port cfg);
             listening := true;
             server_closed := server_closed (listener w);
             spawned := spawned (listener w)
                        ++ map (fun c => (c, cfg)) socks |} |}).
Proof.
  intros Hn. unfold start_honeypot, calm_network. simpl.
  unfold fail_with.
  rewrite (bind_ok _ _ w tt w eq_refl), (bind_ok _ _ w tt w eq_refl).
  unfold try_finally, try_except, server_bind, server_listen, fail_with.
  simpl.
  unfold bind at 1. unfold bind at 1. unfold ret at 1. unfold set_listener at 1.
  unfold bind at 1. unfold bind at 1. unfold ret at 1. unfold set_listener at 1.
  unfold bind at 1. rewrite log_event_next by exact Hn.
  rewrite accept_loop_all. reflexivity.
Qed.

End Further.

(** X1 at work. *)
Lemma unknown_peer_leaves_no_trace_witness :
  handle_connection ascii_runtime
    {| peername := inr (lit "[Errno 107] Transport endpoint is not connected");
       incoming := [] |}
    FTP (fresh_world noon [] [])
  = (Raise (OSError (lit "[Errno 107] Transport endpoint is not connected")),
     fresh_world noon [] []).
Proof.
  exact (unknown_peer_leaves_no_trace ascii_runtime
           {| peername :=
                inr (lit "[Errno 107] Transport endpoint is not connected");
              incoming := [] |}
           FTP (fresh_world noon [] []) _ eq_refl).
Defined.

(** X2 at work. *)
Lemma unrecorded_session_is_dropped_witness :
  closed (conn (snd (handle_connection ascii_runtime (peer_of []) FTP
                       (fresh_world noon [Some (lit "disk full")] []))))
  = false.
Proof.
  rewrite (unrecorded_session_is_dropped ascii_runtime (peer_of []) FTP
             (fresh_world noon [Some (lit "disk full")] [])
             (lit "10.0.0.7") 40000 (lit "disk full") [] eq_refl eq_refl).
  reflexivity.
Defined.

(** X4 at work: the banner of a client, in capitals. *)
Lemma ssh_trigger_any_case_witness :
  react ascii_runtime (name SSH) (lit "SSH-2.0-PuTTY") (fresh_world noon [] [])
  = (send ssh_reply ;; ret Continue) (fresh_world noon [] []).
Proof.
  exact (ssh_trigger_any_case ascii_runtime (lit "SSH-2.0-PuTTY")
           (fresh_world noon [] []) eq_refl eq_refl).
Defined.

(** X5 at work: two clients come to the FTP port. *)
Lemma listener_dispatches_every_arrival_witness :
  spawned (listener (snd (start_honeypot
                            (calm_network [Accepted (peer_of []);
                                           Accepted (peer_of [Received []])])
                            FTP (fresh_world noon [] []))))
  = [(peer_of [], FTP); (peer_of [Received []], FTP)].
Proof.
  pose proof (listener_dispatches_every_arrival FTP (fresh_world noon [] [])
                [peer_of []; peer_of [Received []]] eq_refl) as H.
  change (map Accepted [peer_of []; peer_of [Received []]])
    with [Accepted (peer_of []); Accepted (peer_of [Received []])] in H.
  rewrite H. reflexivity.
Defined.

(** ** The paths of a session, one by one *)

Section Paths.

Variable rt : runtime.

Lemma healthy_tail s :
  healthy s -> Forall (fun f => f = None) (tl (sink_faults s)).
Proof.
  unfold healthy. intros H. destruct (sink_faults s); [constructor|].
  now inversion H.
Qed.

(** The [finally] clause when its record goes through. *)
Lemma farewell_ok service_name client_ip client_port w :
  next_write_ok (sink w) ->
  (close ;; log_event (msg_closed service_name client_ip client_port)) w
  = (Ok tt,
     with_sink
       (with_conn w {| sent := sent (conn w);
                       send_faults := send_faults (conn w);
                       closed := true |})
       (recorded (msg_closed service_name client_ip client_port) (sink w))).
Proof.
  intros H. unfold bind, close. now rewrite log_event_next by exact H.
Qed.

(** A reaction outside HTTP never ends the loop. *)
Lemma react_continues service_name received_data w :
  str_eqb service_name (lit "HTTP") = false ->
  next_send_ok (conn w) ->
  exists w',
    react rt service_name received_data w = (Ok Continue, w')
    /\ sink w' = sink w /\ listener w' = listener w
    /\ closed (conn w') = closed (conn w)
    /\ (conn w' = conn w
        \/ exists reply, conn w' = after_send reply (conn w)).
Proof.
  intros Hs Hn. unfold react. rewrite Hs.
  repeat match goal with
         | |- context [if ?c then _ else _] => destruct c
         end;
    try (rewrite send_then_ok by exact Hn; eexists; repeat split;
         right; eexists; reflexivity).
  exists w. repeat split. now left.
Qed.

(** Outside HTTP, with the log file and the socket in order, the loop
    records every chunk that is not empty and goes on to the next. *)
Lemma recv_loop_chunks service_name client_ip chunks ending :
  str_eqb service_name (lit "HTTP") = false ->
  Forall (fun d => d <> []) chunks ->
  forall w,
    healthy (sink w) -> sends_ok (conn w) ->
    exists w',
      recv_loop rt service_name client_ip (map Received chunks ++ ending) w
      = recv_loop rt service_name client_ip ending w'
      /\ sink w' = recorded_all (data_events service_name client_ip chunks)
                                (sink w)
      /\ sends_ok (conn w')
      /\ closed (conn w') = closed (conn w)
      /\ listener w' = listener w
      /\ exists out, sent (conn w') = sent (conn w) ++ out.
Proof.
  intros Hs Hne. induction Hne as [|d chunks Hd _ IH]; intros w Hh Hk.
  - exists w. repeat split; auto. exists []. now rewrite app_nil_r.
  - destruct d as [|b d]; [congruence|].
    cbn [map app]. rewrite recv_loop_step by exact (healthy_next _ Hh).
    set (rd := received_data_of (b :: d)).
    set (w1 := with_sink w _).
    destruct (react_continues service_name rd w1 Hs (sends_ok_next _ Hk))
      as (w2 & E & R1 & R2 & R3 & R4).
    rewrite E.
    assert (Hh2 : healthy (sink w2)).
    { rewrite R1. apply recorded_healthy, Hh. }
    assert (Hk2 : sends_ok (conn w2)).
    { destruct R4 as [->|(reply & ->)]; [exact Hk|].
      apply sends_ok_after, Hk. }
    destruct (IH w2 Hh2 Hk2) as (w' & E' & S1 & S2 & S3 & S4 & out & S5).
    exists w'. split; [exact E'|].
    split; [rewrite S1, R1; reflexivity|].
    split; [exact S2|].
    split; [now rewrite S3, R3|].
    split; [now rewrite S4, R2|].
    destruct R4 as [R4|(reply & R4)]; rewrite S5, R4.
    + now exists out.
    + exists ([reply] ++ out). simpl. now rewrite <- app_assoc.
Qed.

(** X7.  On any profile but HTTP, with the log file and the socket in
    order, every chunk the peer sends before it closes is recorded, one
    [DATA] event per chunk, in the order of arrival, between
    [NEW_CONNECTION] and [CLOSED]; the session then returns with the
    socket closed. *)
Theorem every_chunk_is_logged_in_order sock cfg w client_ip client_port
        chunks ending :
  peername sock = inl (client_ip, client_port) ->
  str_eqb (name cfg) (lit "HTTP") = false ->
  incoming sock = map Received chunks ++ ending ->
  Forall (fun d => d <> []) chunks ->
  first_read_empty ending ->
  greeting_goes_out cfg (conn w) ->
  healthy (sink w) ->
  sends_ok (conn w) ->
  fst (handle_connection rt sock cfg w) = Ok tt
  /\ sink (snd (handle_connection rt sock cfg w))
     = recorded_all
         (msg_new_connection (name cfg) client_ip client_port
          :: data_events (name cfg) client_ip chunks
          ++ [msg_closed (name cfg) client_ip client_port])
         (sink w)
  /\ closed (conn (snd (handle_connection rt sock cfg w))) = true.
Proof.
  intros Hp Hs Hi Hne He Hg Hh Hk.
  rewrite (handle_connection_unfold rt sock cfg w _ _ Hp (healthy_next _ Hh)).
  rewrite Hi.
  set (hello := msg_new_connection (name cfg) client_ip client_port).
  set (bye := msg_closed (name cfg) client_ip client_port).
  set (w0 := with_sink w (recorded hello (sink w))).
  destruct (send_banner_ok rt cfg w0 Hg) as [Eb (B1 & B2 & B3)].
  set (w1 := snd (send_banner rt cfg w0)) in *.
  assert (Hh1 : healthy (sink w1)).
  { rewrite B1. apply recorded_healthy, Hh. }
  assert (Hk1 : sends_ok (conn w1)).
  { unfold w1, send_banner. destruct (banner cfg) as [|c t]; [exact Hk|].
    unfold encode, bind.
    destruct (encode_utf8 (c :: t)) as [b|]; [|exact Hk].
    unfold ret. rewrite (send_ok b w0 (sends_ok_next _ Hk)).
    apply (sends_ok_after b _ Hk). }
  destruct (recv_loop_chunks (name cfg) client_ip chunks ending Hs Hne
              w1 Hh1 Hk1)
    as (w2 & E & S1 & _ & S3 & _).
  assert (El : recv_loop rt (name cfg) client_ip ending w2 = (Ok tt, w2)).
  { destruct ending as [|[[|b d]|f] rest]; simpl in He;
      try contradiction; reflexivity. }
  assert (Hh2 : healthy (sink w2)).
  { rewrite S1. apply recorded_all_healthy, Hh1. }
  rewrite (try_finally_ok _ _ w0 tt w2 _
             (try_except_ok _ _ w0 tt w2
                (eq_trans (bind_ok _ _ w0 tt w1 Eb) (eq_trans E El)))
             (farewell_ok (name cfg) client_ip client_port w2
                          (healthy_next _ Hh2))).
  simpl. split; [reflexivity|]. split; [|reflexivity].
  rewrite S1, B1. fold bye. fold hello.
  change (hello :: data_events (name cfg) client_ip chunks ++ [bye])
    with ([hello] ++ data_events (name cfg) client_ip chunks ++ [bye]).
  now rewrite !recorded_all_app.
Qed.

(** X8.  When a [recv] fails (on any profile but HTTP, the log file and
    the sends in order), the chunks received before are recorded, then one
    [ERROR] event with the text of the failure, then [CLOSED]; the
    exception does not leave the session, and the socket is closed. *)
Theorem recv_failure_is_logged sock cfg w client_ip client_port
        chunks failure rest :
  peername sock = inl (client_ip, client_port) ->
  str_eqb (name cfg) (lit "HTTP") = false ->
  incoming sock = map Received chunks ++ RecvFails failure :: rest ->
  Forall (fun d => d <> []) chunks ->
  greeting_goes_out cfg (conn w) ->
  healthy (sink w) ->
  sends_ok (conn w) ->
  fst (handle_connection rt sock cfg w) = Ok tt
  /\ sink (snd (handle_connection rt sock cfg w))
     = recorded_all
         (msg_new_connection (name cfg) client_ip client_port
          :: data_events (name cfg) client_ip chunks
          ++ [msg_error (name cfg) client_ip (OSError failure);
              msg_closed (name cfg) client_ip client_port])
         (sink w)
  /\ closed (conn (snd (handle_connection rt sock cfg w))) = true.
Proof.
  intros Hp Hs Hi Hne Hg Hh Hk.
  rewrite (handle_connection_unfold rt sock cfg w _ _ Hp (healthy_next _ Hh)).
  rewrite Hi.
  set (hello := msg_new_connection (name cfg) client_ip client_port).
  set (oops := msg_error (name cfg) client_ip (OSError failure)).
  set (w0 := with_sink w (recorded hello (sink w))).
  destruct (send_banner_ok rt cfg w0 Hg) as [Eb (B1 & B2 & B3)].
  set (w1 := snd (send_banner rt cfg w0)) in *.
  assert (Hh1 : healthy (sink w1)).
  { rewrite B1. apply recorded_healthy, Hh. }
  assert (Hk1 : sends_ok (conn w1)).
  { unfold w1, send_banner. destruct (banner cfg) as [|c t]; [exact Hk|].
    unfold encode, bind.
    destruct (encode_utf8 (c :: t)) as [b|]; [|exact Hk].
    unfold ret. rewrite (send_ok b w0 (sends_ok_next _ Hk)).
    apply (sends_ok_after b _ Hk). }
  destruct (recv_loop_chunks (name cfg) client_ip chunks
              (RecvFails failure :: rest) Hs Hne w1 Hh1 Hk1)
    as (w2 & E & S1 & _ & S3 & _).
  assert (Hh2 : healthy (sink w2)).
  { rewrite S1. apply recorded_all_healthy, Hh1. }
  set (w3 := with_sink w2 (recorded oops (sink w2))).
  assert (Et : try_except
                 (send_banner rt cfg ;;
                  recv_loop rt (name cfg) client_ip
                            (map Received chunks ++ RecvFails failure :: rest))
                 (fun e => log_event (msg_error (name cfg) client_ip e)) w0
               = (Ok tt, w3)).
  { rewrite (try_except_raise _ _ w0 (OSError failure) w2
               (eq_trans (bind_ok _ _ w0 tt w1 Eb) E)).
    apply log_event_healthy, Hh2. }
  assert (Hh3 : healthy (sink w3)) by (apply recorded_healthy, Hh2).
  rewrite (try_finally_ok _ _ w0 tt w3 _ Et
             (farewell_ok (name cfg) client_ip client_port w3
                          (healthy_next _ Hh3))).
  simpl. split; [reflexivity|]. split; [|reflexivity].
  set (bye := msg_closed (name cfg) client_ip client_port).
  rewrite S1, B1. fold hello. fold oops.
  change (hello :: data_events (name cfg) client_ip chunks ++ [oops; bye])
    with ([hello] ++ data_events (name cfg) client_ip chunks ++ [oops; bye]).
  now rewrite !recorded_all_app.
Qed.

(** X6.  When the greeting cannot be sent, the session never reads: it
    records [NEW_CONNECTION], one [ERROR] event with the text of the
    failure, and [CLOSED], sends nothing, closes the socket and returns,
    whatever the peer would have sent. *)
Theorem greeting_failure_ends_session sock cfg w client_ip client_port
        greeting failure faults :
  peername sock = inl (client_ip, client_port) ->
  banner cfg <> [] ->
  encode_utf8 (banner cfg) = Some greeting ->
  send_faults (conn w) = Some failure :: faults ->
  healthy (sink w) ->
  fst (handle_connection rt sock cfg w) = Ok tt
  /\ sink (snd (handle_connection rt sock cfg w))
     = recorded_all
         [msg_new_connection (name cfg) client_ip client_port;
          msg_error (name cfg) client_ip (OSError failure);
          msg_closed (name cfg) client_ip client_port]
         (sink w)
  /\ sent (conn (snd (handle_connection rt sock cfg w))) = sent (conn w)
  /\ closed (conn (snd (handle_connection rt sock cfg w))) = true.
Proof.
  intros Hp Hb He Hf Hh.
  rewrite (handle_connection_unfold rt sock cfg w _ _ Hp (healthy_next _ Hh)).
  set (hello := msg_new_connection (name cfg) client_ip client_port).
  set (oops := msg_error (name cfg) client_ip (OSError failure)).
  set (w0 := with_sink w (recorded hello (sink w))).
  set (w1 := with_conn w0 {| sent := sent (conn w0); send_faults := faults;
                             closed := closed (conn w0) |}).
  assert (Eb : send_banner rt cfg w0 = (Raise (OSError failure), w1)).
  { unfold send_banner. destruct (banner cfg) as [|c t] eqn:E; [congruence|].
    unfold encode. rewrite He.
    rewrite (bind_ok _ _ w0 greeting w0 eq_refl).
    unfold send. change (conn w0) with (conn w). rewrite Hf. reflexivity. }
  assert (Hh1 : healthy (sink w1)) by (apply recorded_healthy, Hh).
  set (w2 := with_sink w1 (recorded oops (sink w1))).
  assert (Et : try_except
                 (send_banner rt cfg ;;
                  recv_loop rt (name cfg) client_ip (incoming sock))
                 (fun e => log_event (msg_error (name cfg) client_ip e)) w0
               = (Ok tt, w2)).
  { rewrite (try_except_raise _ _ w0 (OSError failure) w1
               (bind_raise _ _ w0 _ w1 Eb)).
    apply log_event_healthy, Hh1. }
  assert (Hh2 : healthy (sink w2)) by (apply recorded_healthy, Hh1).
  rewrite (try_finally_ok _ _ w0 tt w2 _ Et
             (farewell_ok (name cfg) client_ip client_port w2
                          (healthy_next _ Hh2))).
  repeat split.
Qed.

(** X9.  When the write of a [DATA] record to the log file fails, the
    chunk gets no reaction: the failure is caught by the session, which
    records [ERROR] with the text of that failure, then [CLOSED], and
    returns.  The console shows [NEW_CONNECTION], [DATA], [ERROR],
    [CLOSED]; the file has no [DATA] line; nothing but the greeting was
    sent. *)
Theorem failed_data_write_ends_session sock cfg w client_ip client_port
        b data rest failure faults :
  peername sock = inl (client_ip, client_port) ->
  incoming sock = Received (b :: data) :: rest ->
  greeting_goes_out cfg (conn w) ->
  sink_faults (sink w) = None :: Some failure :: faults ->
  Forall (fun f => f = None) faults ->
  let hello := msg_new_connection (name cfg) client_ip client_port in
  let seen := msg_data (name cfg) client_ip (received_data_of (b :: data)) in
  let oops := msg_error (name cfg) client_ip (OSError failure) in
  let bye := msg_closed (name cfg) client_ip client_port in
  let w' := snd (handle_connection rt sock cfg w) in
  fst (handle_connection rt sock cfg w) = Ok tt
  /\ console (sink w')
     = console (sink w)
       ++ entries (clock (sink w)) (ticks (sink w)) [hello; seen; oops; bye]
  /\ logfile (sink w')
     = logfile (sink w)
       ++ [log_entry (clock (sink w) (ticks (sink w))) hello ++ newline;
           log_entry (clock (sink w) (S (S (ticks (sink w))))) oops
           ++ newline;
           log_entry (clock (sink w) (S (S (S (ticks (sink w)))))) bye
           ++ newline]
  /\ sent (conn w') = sent (conn (snd (send_banner rt cfg w)))
  /\ closed (conn w') = true.
Proof.
  intros Hp Hi Hg Hf Hrest. cbv zeta.
  assert (Hn : next_write_ok (sink w)).
  { unfold next_write_ok. now rewrite Hf. }
  rewrite (handle_connection_unfold rt sock cfg w _ _ Hp Hn), Hi.
  set (hello := msg_new_connection (name cfg) client_ip client_port).
  set (seen := msg_data (name cfg) client_ip (received_data_of (b :: data))).
  set (oops := msg_error (name cfg) client_ip (OSError failure)).
  set (w0 := with_sink w (recorded hello (sink w))).
  destruct (send_banner_ok rt cfg w0 Hg) as [Eb (B1 & B2 & B3)].
  set (w1 := snd (send_banner rt cfg w0)) in *.
  assert (F1 : sink_faults (sink w1) = Some failure :: faults).
  { rewrite B1. simpl. now rewrite Hf. }
  set (w2 := with_sink w1 (printed seen (sink w1))).
  assert (Ec : recv_loop rt (name cfg) client_ip
                 (Received (b :: data) :: rest) w1
               = (Raise (OSError failure), w2)).
  { cbn [recv_loop]. apply bind_raise. unfold on_chunk.
    apply bind_raise. rewrite log_event_cases, F1. reflexivity. }
  assert (Hh2 : healthy (sink w2)).
  { unfold healthy. simpl. now rewrite F1. }
  set (w3 := with_sink w2 (recorded oops (sink w2))).
  assert (Et : try_except
                 (send_banner rt cfg ;;
                  recv_loop rt (name cfg) client_ip
                            (Received (b :: data) :: rest))
                 (fun e => log_event (msg_error (name cfg) client_ip e)) w0
               = (Ok tt, w3)).
  { rewrite (try_except_raise _ _ w0 (OSError failure) w2
               (eq_trans (bind_ok _ _ w0 tt w1 Eb) Ec)).
    apply log_event_healthy, Hh2. }
  assert (Hh3 : healthy (sink w3)) by (apply recorded_healthy, Hh2).
  rewrite (try_finally_ok _ _ w0 tt w3 _ Et
             (farewell_ok (name cfg) client_ip client_port w3
                          (healthy_next _ Hh3))).
  simpl. rewrite B1. simpl.
  split; [reflexivity|].
  split; [now rewrite <- !app_assoc|].
  split; [now rewrite <- !app_assoc|].
  split; [|reflexivity].
  unfold w1, w0, send_banner. destruct (banner cfg) as [|c t]; [reflexivity|].
  unfold encode, bind. destruct (encode_utf8 (c :: t)); [|reflexivity].
  unfold ret, send. simpl.
  destruct (send_faults (conn w)) as [|[f|] more]; reflexivity.
Qed.

End Paths.

(** ** What the payload of a [DATA] event can and cannot hold *)

Section PayloadShape.








(** A word that starts and ends with a character other than whitespace
    is found in the stripped text exactly when it is found in the text. *)
Lemma contains_strip_ends needle s :
  needle <> [] ->
  isspace (hd 0%N needle) = false ->
  isspace (last needle 0%N) = false ->
  contains needle (strip s) = contains needle s.
Proof.
  intros Hne Ha Hz.
  destruct (contains needle s) eqn:E.
  - apply contains_inv in E. destruct E as (pre & post & ->).
    destruct (exists_last Hne) as (n0 & z & Hn).
    assert (Hzs : isspace z = false).
    { rewrite Hn, last_last in Hz. exact Hz. }
    destruct needle as [|a n']; [congruence|]. simpl in Ha.
    unfold strip. simpl app.
    rewrite lstrip_app_nonspace by exact Ha.
    change (a :: n' ++ post) with ((a :: n') ++ post). rewrite Hn.
    replace (lstrip pre ++ (n0 ++ [z]) ++ post)
      with ((lstrip pre ++ n0) ++ z :: post)
      by (rewrite <- !app_assoc; reflexivity).
    rewrite rstrip_app_nonspace by exact Hzs.
    replace ((lstrip pre ++ n0) ++ z :: rstrip post)
      with (lstrip pre ++ (n0 ++ [z]) ++ rstrip post)
      by (rewrite <- !app_assoc; reflexivity).
    apply contains_intro.
  - destruct (contains needle (strip s)) eqn:E'; [|reflexivity].
    apply contains_inv in E'. destruct E' as (pre & post & Hs).
    destruct (strip_split s) as (l & r & Hl & _).
    rewrite Hs in Hl.
    assert (contains needle s = true); [|congruence].
    rewrite Hl.
    replace (l ++ (pre ++ needle ++ post) ++ r)
      with ((l ++ pre) ++ needle ++ (post ++ r))
      by (rewrite <- !app_assoc; reflexivity).
    apply contains_intro.
Qed.

(** X11.  Only the two ends of a decoded chunk are cleaned: any run of
    characters of the chunk that starts and ends with a character other
    than whitespace is in the payload as it came, line breaks and all, and
    so goes into the log file verbatim (a client can make one [DATA]
    record look like several log lines). *)
Theorem payload_keeps_inner_text service_name client_ip data text needle :
  decode_utf8 data = Some text ->
  needle <> [] ->
  isspace (hd 0%N needle) = false ->
  isspace (last needle 0%N) = false ->
  contains needle text = true ->
  contains needle (received_data_of data) = true
  /\ contains needle (msg_data service_name client_ip (received_data_of data))
     = true.
Proof.
  intros Hd Hne Ha Hz Hc.
  assert (H : contains needle (received_data_of data) = true).
  { unfold received_data_of. rewrite Hd.
    now rewrite contains_strip_ends. }
  split; [exact H|].
  apply contains_inv in H. destruct H as (pre & post & ->).
  unfold msg_data. rewrite !app_assoc.
  rewrite <- (app_assoc _ needle post). apply contains_intro.
Qed.

End PayloadShape.

(** ** The other ways a listener ends, and the start-up header *)

Section ListenerPaths.

Lemma accept_loop_until_failure cfg socks failure rest :
  forall w,
    accept_loop cfg (map Accepted socks ++ AcceptFails failure :: rest) w
    = (Raise (OSError failure),
       with_listener w
         {| bound := bound (listener w);
            listening := listening (listener w);
            server_closed := server_closed (listener w);
            spawned := spawned (listener w)
                       ++ map (fun c => (c, cfg)) socks |}).
Proof.
  induction socks as [|c socks IH]; intros w.
  - simpl. unfold raise, with_listener. rewrite app_nil_r.
    destruct w as [s c l]. destruct l. reflexivity.
  - cbn [map app accept_loop]. unfold bind, start_thread, set_listener.
    rewrite IH. unfold with_listener. simpl. now rewrite <- app_assoc.
Qed.

(** The listener up to its accept loop, when nothing fails before. *)
Lemma start_honeypot_started net cfg w :
  socket_fault net = None ->
  setsockopt_fault net = None ->
  bind_fault net = None ->
  listen_fault net = None ->
  start_honeypot net cfg w
  = try_finally
      (try_except
         (log_event (msg_listening cfg) ;;
          accept_loop cfg (arrivals net))
         (fun e => log_event (msg_fatal cfg e)))
      server_close
      (with_listener w
         {| bound := Some (BIND_IP, port cfg); listening := true;
            server_closed := server_closed (listener w);
            spawned := spawned (listener w) |}).
Proof.
  intros H1 H2 H3 H4. unfold start_honeypot. rewrite H1, H2.
  unfold fail_with.
  rewrite (bind_ok _ _ w tt w eq_refl), (bind_ok _ _ w tt w eq_refl).
  set (w1 := with_listener w
               {| bound := Some (BIND_IP, port cfg);
                  listening := listening (listener w);
                  server_closed := server_closed (listener w);
                  spawned := spawned (listener w) |}).
  assert (E1 : server_bind net (BIND_IP, port cfg) w = (Ok tt, w1)).
  { unfold server_bind, fail_with. rewrite H3. reflexivity. }
  assert (E2 : server_listen net w1
               = (Ok tt,
                  with_listener w
                    {| bound := Some (BIND_IP, port cfg); listening := true;
                       server_closed := server_closed (listener w);
                       spawned := spawned (listener w) |})).
  { unfold server_listen, fail_with. rewrite H4. reflexivity. }
  unfold try_finally, try_except.
  rewrite (bind_ok _ _ w tt w1 E1), (bind_ok _ _ w1 tt _ E2).
  reflexivity.
Qed.

(** X12.  When [accept] fails on a listener that was started, the sessions
    already handed over stay with their threads, and the listener records
    [FATAL] (worded "Failed to start", with the text of the failure), closes
    its socket and returns: it accepts nothing more. *)
Theorem accept_failure_stops_listener net cfg w socks failure rest :
  socket_fault net = None ->
  setsockopt_fault net = None ->
  bind_fault net = None ->
  listen_fault net = None ->
  arrivals net = map Accepted socks ++ AcceptFails failure :: rest ->
  healthy (sink w) ->
  start_honeypot net cfg w
  = (Ok tt,
     {| sink := recorded_all [msg_listening cfg;
                              msg_fatal cfg (OSError failure)] (sink w);
        conn := conn w;
        listener :=
          {| bound := Some (BIND_IP, port cfg);
             listening := true;
             server_closed := true;
             spawned := spawned (listener w)
                        ++ map (fun c => (c, cfg)) socks |} |}).
Proof.
  intros H1 H2 H3 H4 Ha Hh.
  rewrite (start_honeypot_started net cfg w H1 H2 H3 H4), Ha.
  unfold try_finally, try_except.
  unfold bind at 1. rewrite log_event_healthy by exact Hh.
  rewrite accept_loop_until_failure.
  rewrite log_event_healthy by (apply recorded_healthy, Hh).
  reflexivity.
Qed.

(** X13.  A failure to create the listening socket, or to set its
    options, is not turned into a [FATAL] event: the exception leaves
    [start_honeypot] (both calls stand before the [try]), nothing is
    recorded, and in the second case the socket is not closed. *)
Theorem socket_setup_failure_escapes net cfg w failure :
  socket_fault net = Some failure
  \/ (socket_fault net = None /\ setsockopt_fault net = Some failure) ->
  start_honeypot net cfg w = (Raise (OSError failure), w).
Proof.
  intros [H|[H1 H2]]; unfold start_honeypot.
  - rewrite H. reflexivity.
  - rewrite H1, H2. reflexivity.
Qed.

(** X14.  When the write of the [LISTENING] record fails, a listener that
    is bound and listening gives up all the same: the failure is taken for
    a start-up failure, [FATAL] is recorded with the text of the write
    failure, the socket is closed and no connection is ever accepted. *)
Theorem listening_record_failure_stops_listener net cfg w failure faults :
  socket_fault net = None ->
  setsockopt_fault net = None ->
  bind_fault net = None ->
  listen_fault net = None ->
  sink_faults (sink w) = Some failure :: faults ->
  hd None faults = None ->
  start_honeypot net cfg w
  = (Ok tt,
     {| sink := recorded (msg_fatal cfg (OSError failure))
                         (printed (msg_listening cfg) (sink w));
        conn := conn w;
        listener :=
          {| bound := Some (BIND_IP, port cfg);
             listening := true;
             server_closed := true;
             spawned := spawned (listener w) |} |}).
Proof.
  intros H1 H2 H3 H4 Hf Hn.
  rewrite (start_honeypot_started net cfg w H1 H2 H3 H4).
  unfold try_finally, try_except.
  unfold bind at 1. rewrite log_event_cases. simpl sink. rewrite Hf.
  rewrite log_event_next; [reflexivity|].
  unfold next_write_ok. simpl. now rewrite Hf.
Qed.

(** X15.  [setup_logging] ends in one of three ways.  When the log file
    cannot be opened it raises before it has read the clock, written or
    printed anything.  When the file opens but the header cannot be flushed
    as the block closes it, it raises after the clock was read, with
    nothing appended and nothing printed.  Otherwise it appends the three
    texts of the header to the file (what the file held before stays) and
    then prints the start line.  The second text lists the ports of the
    table in order, as [[21, 22, 80, 3389]]. *)
Theorem setup_logging_outcome w :
  setup_logging w
  = match sink_faults (sink w) with
    | Some failure :: _ =>
      (Raise (OSError failure), with_sink w (refused (sink w)))
    | faults =>
      match tl faults with
      | Some failure :: _ =>
        (Raise (OSError failure), with_sink w (unflushed (sink w)))
      | _ => (Ok tt, with_sink w (header_written (sink w)))
      end
    end
  /\ header_ports HONEYPOTS
     = lit "Listening on ports: [21, 22, 80, 3389]" ++ newline.
Proof.
  split; [|reflexivity].
  unfold setup_logging, get_timestamp, bind, open_log, read_clock, close_log,
    print, header_written, refused, unflushed, with_sink.
  destruct (sink_faults (sink w)) as [|[failure|] [|[failure'|] rest]] eqn:E;
    simpl; try rewrite E; simpl; reflexivity.
Qed.

End ListenerPaths.

(** ** Nothing is taken back *)

Section Growth.

Variable rt : runtime.

Lemma grows_refl w : grows w w.
Proof.
  exists [], [], []. rewrite !app_nil_r. repeat split; auto.
  intros t [].
Qed.

Lemma grows_trans w1 w2 w3 : grows w1 w2 -> grows w2 w3 -> grows w1 w3.
Proof.
  intros (l1 & t1 & o1 & A1 & A2 & A3 & A4 & A5 & A6)
         (l2 & t2 & o2 & B1 & B2 & B3 & B4 & B5 & B6).
  exists (l1 ++ l2), (t1 ++ t2), (o1 ++ o2).
  rewrite B1, B2, B3, A1, A2, A3, !app_assoc.
  repeat split; auto.
  intros t Ht. apply in_app_or in Ht. destruct Ht as [Ht|Ht].
  - destruct (A4 t Ht) as (l & Hl & E). exists l. split; [|exact E].
    apply in_or_app. now left.
  - destruct (B4 t Ht) as (l & Hl & E). exists l. split; [|exact E].
    apply in_or_app. now right.
Qed.

Lemma keeps_ret {A} (a : A) : keeps (ret a).
Proof. intros w. apply grows_refl. Qed.

Lemma keeps_raise {A} e : keeps (@raise A e).
Proof. intros w. apply grows_refl. Qed.

Lemma keeps_blocked {A} : keeps (@blocked A).
Proof. intros w. apply grows_refl. Qed.

Lemma keeps_bind {A B} (m : M A) (k : A -> M B) :
  keeps m -> (forall a, keeps (k a)) -> keeps (bind m k).
Proof.
  intros Hm Hk w. unfold bind. specialize (Hm w).
  destruct (m w) as [[a|e|] w1]; simpl in *; auto.
  eapply grows_trans; [exact Hm|apply Hk].
Qed.

Lemma keeps_try_except {A} (body : M A) handler :
  keeps body -> (forall e, keeps (handler e)) ->
  keeps (try_except body handler).
Proof.
  intros Hb Hh w. unfold try_except. specialize (Hb w).
  destruct (body w) as [[a|e|] w1]; simpl in *; auto.
  eapply grows_trans; [exact Hb|apply Hh].
Qed.

Lemma keeps_try_finally {A} (body : M A) final :
  keeps body -> keeps final -> keeps (try_finally body final).
Proof.
  intros Hb Hf w. unfold try_finally. specialize (Hb w).
  destruct (body w) as [[a|e|] w1]; simpl in *; auto;
    specialize (Hf w1);
    destruct (final w1) as [[[]|e'|] w2]; simpl in *;
    eapply grows_trans; eauto.
Qed.

Lemma keeps_log_event message : keeps (log_event message).
Proof.
  intros w. rewrite log_event_cases.
  destruct (sink_faults (sink w)) as [|[failure|] rest]; simpl.
  - exists [log_entry (clock (sink w) (ticks (sink w))) message],
           [log_entry (clock (sink w) (ticks (sink w))) message ++ newline],
           [].
    rewrite app_nil_r. repeat split; auto.
    intros t [<-|[]]. eexists. split; [now left|reflexivity].
  - exists [log_entry (clock (sink w) (ticks (sink w))) message], [], [].
    rewrite !app_nil_r. repeat split; auto. intros t [].
  - exists [log_entry (clock (sink w) (ticks (sink w))) message],
           [log_entry (clock (sink w) (ticks (sink w))) message ++ newline],
           [].
    rewrite app_nil_r. repeat split; auto.
    intros t [<-|[]]. eexists. split; [now left|reflexivity].
Qed.

Lemma keeps_send data : keeps (send data).
Proof.
  intros w. unfold send.
  destruct (send_faults (conn w)) as [|[failure|] rest]; simpl.
  - exists [], [], [data]. rewrite !app_nil_r. repeat split; auto.
    intros t [].
  - exists [], [], []. simpl. rewrite !app_nil_r. repeat split; auto.
    intros t [].
  - exists [], [], [data]. rewrite !app_nil_r. repeat split; auto.
    intros t [].
Qed.

Lemma keeps_close : keeps close.
Proof.
  intros w. exists [], [], []. simpl. rewrite !app_nil_r.
  repeat split; auto. intros t [].
Qed.

Lemma keeps_react service_name received_data :
  keeps (react rt service_name received_data).
Proof.
  unfold react.
  repeat match goal with
         | |- context [if ?c then _ else _] => destruct c
         end;
    try apply keeps_ret;
    apply keeps_bind; auto using keeps_send; intros; apply keeps_ret.
Qed.

Lemma keeps_recv_loop service_name client_ip results :
  keeps (recv_loop rt service_name client_ip results).
Proof.
  induction results as [|[[|b d]|failure] rest IH]; cbn [recv_loop];
    try apply keeps_ret; try apply keeps_raise.
  apply keeps_bind.
  - unfold on_chunk. apply keeps_bind; [apply keeps_log_event|].
    intros _. apply keeps_react.
  - intros [|]; [exact IH|apply keeps_ret].
Qed.

Lemma keeps_send_banner cfg : keeps (send_banner rt cfg).
Proof.
  unfold send_banner. destruct (banner cfg) as [|c t]; [apply keeps_ret|].
  apply keeps_bind.
  - unfold encode. destruct (encode_utf8 (c :: t));
      [apply keeps_ret|apply keeps_raise].
  - intros b. apply keeps_send.
Qed.

Lemma keeps_handle_connection sock cfg : keeps (handle_connection rt sock cfg).
Proof.
  unfold handle_connection. apply keeps_bind.
  - unfold getpeername. destruct (peername sock);
      [apply keeps_ret|apply keeps_raise].
  - intros [client_ip client_port]. apply keeps_bind;
      [apply keeps_log_event|]. intros _.
    apply keeps_try_finally.
    + apply keeps_try_except.
      * apply keeps_bind; [apply keeps_send_banner|].
        intros _. apply keeps_recv_loop.
      * intros e. apply keeps_log_event.
    + apply keeps_bind; [apply keeps_close|].
      intros _. apply keeps_log_event.
Qed.

Lemma keeps_fail_with fault : keeps (fail_with fault).
Proof.
  unfold fail_with. destruct fault; [apply keeps_raise|apply keeps_ret].
Qed.

Lemma keeps_set_listener f :
  (forall l, server_closed l = true -> server_closed (f l) = true) ->
  keeps (set_listener f).
Proof.
  intros Hf w. exists [], [], []. simpl. rewrite !app_nil_r.
  repeat split; auto. intros t [].
Qed.

Lemma keeps_accept_loop cfg results : keeps (accept_loop cfg results).
Proof.
  induction results as [|[c|failure] rest IH]; cbn [accept_loop];
    try apply keeps_blocked; try apply keeps_raise.
  apply keeps_bind; [|intros _; exact IH].
  apply keeps_set_listener. auto.
Qed.

Lemma keeps_start_honeypot net cfg : keeps (start_honeypot net cfg).
Proof.
  unfold start_honeypot.
  apply keeps_bind; [apply keeps_fail_with|]. intros _.
  apply keeps_bind; [apply keeps_fail_with|]. intros _.
  apply keeps_try_finally.
  - apply keeps_try_except.
    + apply keeps_bind.
      * unfold server_bind. apply keeps_bind; [apply keeps_fail_with|].
        intros _. apply keeps_set_listener. auto.
      * intros _. apply keeps_bind.
        -- unfold server_listen. apply keeps_bind; [apply keeps_fail_with|].
           intros _. apply keeps_set_listener. auto.
        -- intros _. apply keeps_bind; [apply keeps_log_event|].
           intros _. apply keeps_accept_loop.
    + intros e. apply keeps_log_event.
  - unfold server_close. apply keeps_set_listener. auto.
Qed.

(** X16.  Whatever fails and wherever, a session and a listener take
    nothing back: the console and the log file only get longer (the file
    is appended to, never cut), every text that reaches the file is a line
    that was printed, with a newline after it, the data sent is only added
    to, and a socket that is closed is not opened again. *)
Theorem nothing_is_taken_back sock net cfg w :
  grows w (snd (handle_connection rt sock cfg w))
  /\ grows w (snd (start_honeypot net cfg w)).
Proof.
  split; [apply keeps_handle_connection|apply keeps_start_honeypot].
Qed.

End Growth.

(** ** UTF-8: what is sent and what is logged can be read back *)

Ltac Zify.zify_post_hook ::= Z.to_euclidean_division_equations.

Section Utf8.

Variable rt : runtime.

Local Open Scope N_scope.

(** One step of the decoder, for each length of sequence. *)
Lemma decode1 b0 t :
  (b0 <? 0x80) = true ->
  decode_points (b0 :: t) = option_map (cons b0) (decode_points t).
Proof. intros H. cbn [decode_points]. rewrite H. reflexivity. Qed.

Lemma decode2 b0 b1 t :
  in_range 0xC2 0xDF b0 = true -> is_cont b1 = true ->
  decode_points (b0 :: b1 :: t)
  = option_map (cons ((b0 - 0xC0) * 64 + (b1 - 0x80))) (decode_points t).
Proof.
  intros H1 H2.
  assert (H0 : (b0 <? 0x80) = false) by (unfold in_range in H1; lia).
  cbn [decode_points]. rewrite H0, H1, H2. reflexivity.
Qed.

Lemma decode3 b0 b1 b2 t :
  in_range 0xE0 0xEF b0 = true -> second_ok b0 b1 = true -> is_cont b2 = true ->
  decode_points (b0 :: b1 :: b2 :: t)
  = option_map (cons ((b0 - 0xE0) * 4096 + (b1 - 0x80) * 64 + (b2 - 0x80)))
               (decode_points t).
Proof.
  intros H1 H2 H3.
  assert (H0 : (b0 <? 0x80) = false) by (unfold in_range in H1; lia).
  assert (H0' : in_range 0xC2 0xDF b0 = false) by (unfold in_range in *; lia).
  cbn [decode_points]. rewrite H0, H0', H1, H2, H3. reflexivity.
Qed.
Lemma decode4 b0 b1 b2 b3 t :
  in_range 0xF0 0xF4 b0 = true -> second_ok b0 b1 = true ->
  is_cont b2 = true -> is_cont b3 = true ->
  decode_points (b0 :: b1 :: b2 :: b3 :: t)
  = option_map (cons ((b0 - 0xF0) * 262144 + (b1 - 0x80) * 4096
                      + (b2 - 0x80) * 64 + (b3 - 0x80)))
               (decode_points t).
Proof.
  intros H1 H2 H3 H4.
  assert (H0 : (b0 <? 0x80) = false) by (unfold in_range in H1; lia).
  assert (H0' : in_range 0xC2 0xDF b0 = false) by (unfold in_range in *; lia).
  assert (H0'' : in_range 0xE0 0xEF b0 = false) by (unfold in_range in *; lia).
  cbn [decode_points]. rewrite H0, H0', H0'', H1, H2, H3, H4. reflexivity.
Qed.

Lemma to_N_byte_of_N n : n < 256 -> Byte.to_N (byte_of_N n) = n.
Proof.
  intros H. unfold byte_of_N. rewrite N.mod_small by exact H.
  destruct (Byte.of_N n) as [b|] eqn:E.
  - now apply Byte.to_of_N.
  - apply Byte.of_N_None_iff in E. lia.
Qed.

Lemma byte_of_to_N x : byte_of_N (Byte.to_N x) = x.
Proof.
  unfold byte_of_N. pose proof (Byte.to_N_bounded x).
  rewrite N.mod_small by lia. now rewrite Byte.of_to_N.
Qed.

Lemma some_inj {A} (a b : A) : Some a = Some b -> a = b.
Proof. congruence. Qed.

Lemma encode_point_decode c bs rest :
  encode_point c = Some bs ->
  decode_points (map Byte.to_N bs ++ rest)
  = option_map (cons c) (decode_points rest).
Proof.
  unfold encode_point.
  destruct (c <? 0x80) eqn:E1.
  { intros H; apply some_inj in H; subst bs. cbn [map app]. rewrite to_N_byte_of_N by lia.
    now apply decode1. }
  destruct (c <? 0x800) eqn:E2.
  { intros H; apply some_inj in H; subst bs. cbn [map app]. rewrite !to_N_byte_of_N by lia.
    rewrite decode2 by (unfold in_range, is_cont; lia).
    f_equal. f_equal. lia. }
  destruct (in_range 0xD800 0xDFFF c) eqn:E3; [discriminate|].
  destruct (c <? 0x10000) eqn:E4.
  { intros H; apply some_inj in H; subst bs. cbn [map app]. rewrite !to_N_byte_of_N by lia.
    rewrite decode3.
    - f_equal. f_equal. lia.
    - unfold in_range. lia.
    - unfold second_ok, in_range, is_cont in *.
      repeat match goal with
             | |- context [if ?b then _ else _] => destruct b eqn:?
             end; lia.
    - unfold is_cont. lia. }
  destruct (c <? 0x110000) eqn:E5; [|discriminate].
  intros H; apply some_inj in H; subst bs. cbn [map app]. rewrite !to_N_byte_of_N by lia.
  rewrite decode4.
  - f_equal. f_equal. lia.
  - unfold in_range. lia.
  - unfold second_ok, in_range, is_cont in *.
    repeat match goal with
           | |- context [if ?b then _ else _] => destruct b eqn:?
           end; lia.
  - unfold is_cont. lia.
  - unfold is_cont. lia.
Qed.

Lemma encode_then_decode s b :
  encode_utf8 s = Some b -> decode_utf8 b = Some s.
Proof.
  revert b. induction s as [|c s IH]; intros b H.
  - injection H as <-. reflexivity.
  - cbn [encode_utf8] in H.
    destruct (encode_point c) as [bs|] eqn:Ec; [|discriminate].
    destruct (encode_utf8 s) as [r|] eqn:Es; [|discriminate].
    injection H as <-. unfold decode_utf8 in *.
    rewrite map_app, (encode_point_decode _ _ _ Ec), (IH r eq_refl).
    reflexivity.
Qed.

(** Bounds on bytes and code points, by case analysis and arithmetic. *)
Ltac ranges :=
  unfold second_ok, in_range, is_cont in *;
  repeat match goal with
         | H : context [if ?b then _ else _] |- _ => destruct b eqn:?
         end;
  lia.

Lemma decode_points_encode n :
  forall l, (List.length l <= n)%nat ->
            Forall (fun b => b < 256) l ->
            forall text, decode_points l = Some text ->
                         encode_utf8 text = Some (map byte_of_N l).
Proof.
  induction n as [|n IH]; intros l Hlen Hb text Hd.
  { destruct l; [|simpl in Hlen; lia]. apply some_inj in Hd. now subst. }
  destruct l as [|b0 t0]; [apply some_inj in Hd; now subst|].
  inversion Hb as [|? ? Hb0 Ht0]; subst. simpl in Hlen.
  destruct (b0 <? 0x80) eqn:E0.
  { rewrite decode1 in Hd by exact E0.
    destruct (decode_points t0) as [t'|] eqn:Et; [|discriminate].
    apply some_inj in Hd. subst text. cbn [encode_utf8 map].
    rewrite (IH t0 ltac:(lia) Ht0 t' Et).
    unfold encode_point. rewrite E0. reflexivity. }
  destruct t0 as [|b1 t1].
  { cbn [decode_points] in Hd. rewrite E0 in Hd. discriminate. }
  inversion Ht0 as [|? ? Hb1 Ht1]; subst. simpl in Hlen.
  destruct (in_range 0xC2 0xDF b0) eqn:E1.
  { destruct (is_cont b1) eqn:C1.
    2:{ cbn [decode_points] in Hd. rewrite E0, E1, C1 in Hd. discriminate. }
    rewrite decode2 in Hd by assumption.
    destruct (decode_points t1) as [t'|] eqn:Et; [|discriminate].
    apply some_inj in Hd. subst text. cbn [encode_utf8 map].
    rewrite (IH t1 ltac:(lia) Ht1 t' Et).
    set (c := (b0 - 0xC0) * 64 + (b1 - 0x80)).
    assert (Hc : c = (b0 - 0xC0) * 64 + (b1 - 0x80)) by reflexivity.
    clearbody c.
    unfold encode_point.
    replace (c <? 0x80) with false by ranges.
    replace (c <? 0x800) with true by ranges.
    replace (0xC0 + c / 64) with b0 by ranges.
    replace (0x80 + c mod 64) with b1 by ranges.
    reflexivity. }
  destruct t1 as [|b2 t2].
  { cbn [decode_points] in Hd. rewrite E0, E1 in Hd. discriminate. }
  inversion Ht1 as [|? ? Hb2 Ht2]; subst. simpl in Hlen.
  destruct (in_range 0xE0 0xEF b0) eqn:E2.
  { destruct (second_ok b0 b1 && is_cont b2) eqn:C.
    2:{ cbn [decode_points] in Hd. rewrite E0, E1, E2, C in Hd.
        discriminate. }
    apply andb_true_iff in C. destruct C as [C1 C2].
    rewrite decode3 in Hd by assumption.
    destruct (decode_points t2) as [t'|] eqn:Et; [|discriminate].
    apply some_inj in Hd. subst text. cbn [encode_utf8 map].
    rewrite (IH t2 ltac:(lia) Ht2 t' Et).
    set (c := (b0 - 0xE0) * 4096 + (b1 - 0x80) * 64 + (b2 - 0x80)).
    assert (Hc : c = (b0 - 0xE0) * 4096 + (b1 - 0x80) * 64 + (b2 - 0x80))
      by reflexivity.
    clearbody c.
    unfold encode_point.
    replace (c <? 0x80) with false by ranges.
    replace (c <? 0x800) with false by ranges.
    replace (in_range 0xD800 0xDFFF c) with false by ranges.
    replace (c <? 0x10000) with true by ranges.
    replace (0xE0 + c / 4096) with b0 by ranges.
    replace (0x80 + (c / 64) mod 64) with b1 by ranges.
    replace (0x80 + c mod 64) with b2 by ranges.
    reflexivity. }
  destruct t2 as [|b3 t3].
  { cbn [decode_points] in Hd. rewrite E0, E1, E2 in Hd. discriminate. }
  inversion Ht2 as [|? ? Hb3 Ht3]; subst. simpl in Hlen.
  destruct (in_range 0xF0 0xF4 b0) eqn:E3.
  2:{ cbn [decode_points] in Hd. rewrite E0, E1, E2, E3 in Hd. discriminate. }
  destruct (second_ok b0 b1 && is_cont b2 && is_cont b3) eqn:C.
  2:{ cbn [decode_points] in Hd. rewrite E0, E1, E2, E3, C in Hd.
      discriminate. }
  apply andb_true_iff in C. destruct C as [C C3].
  apply andb_true_iff in C. destruct C as [C1 C2].
  rewrite decode4 in Hd by assumption.
  destruct (decode_points t3) as [t'|] eqn:Et; [|discriminate].
  apply some_inj in Hd. subst text. cbn [encode_utf8 map].
  rewrite (IH t3 ltac:(lia) Ht3 t' Et).
  set (c := (b0 - 0xF0) * 262144 + (b1 - 0x80) * 4096
            + (b2 - 0x80) * 64 + (b3 - 0x80)).
  assert (Hc : c = (b0 - 0xF0) * 262144 + (b1 - 0x80) * 4096
                   + (b2 - 0x80) * 64 + (b3 - 0x80)) by reflexivity.
  clearbody c.
  unfold encode_point.
  replace (c <? 0x80) with false by ranges.
  replace (c <? 0x800) with false by ranges.
  replace (in_range 0xD800 0xDFFF c) with false by ranges.
  replace (c <? 0x10000) with false by ranges.
  replace (c <? 0x110000) with true by ranges.
  replace (0xF0 + c / 262144) with b0 by ranges.
  replace (0x80 + (c / 4096) mod 64) with b1 by ranges.
  replace (0x80 + (c / 64) mod 64) with b2 by ranges.
  replace (0x80 + c mod 64) with b3 by ranges.
  reflexivity.
Qed.

Lemma decode_then_encode data text :
  decode_utf8 data = Some text -> encode_utf8 text = Some data.
Proof.
  unfold decode_utf8. intros H.
  rewrite (decode_points_encode (List.length (map Byte.to_N data))
             (map Byte.to_N data) (le_n _)
             ltac:(apply Forall_forall; intros x Hx;
                   apply in_map_iff in Hx; destruct Hx as (y & <- & _);
                   pose proof (Byte.to_N_bounded y); lia)
             text H).
  rewrite map_map. f_equal.
  rewrite <- (map_id data) at 2. apply map_ext. apply byte_of_to_N.
Qed.

(** X17.  A chunk that decodes is recorded without loss but for the
    whitespace at its two ends: encoding the decoded text gives the chunk
    back, and so does encoding the payload of the [DATA] event between the
    two runs of whitespace that [strip] removed. *)
Theorem decoded_chunk_is_recoverable data text :
  decode_utf8 data = Some text ->
  encode_utf8 text = Some data
  /\ exists l r,
       forallb isspace l = true /\ forallb isspace r = true
       /\ encode_utf8 (l ++ received_data_of data ++ r) = Some data.
Proof.
  intros H. pose proof (decode_then_encode data text H) as E.
  split; [exact E|].
  destruct (strip_split text) as (l & r & Hs & Hl & Hr).
  exists l, r. unfold received_data_of. rewrite H, <- Hs. auto.
Qed.

(** X18.  The greeting a session sends is the banner of its profile in
    UTF-8: when [send_banner] returns, for a banner that is not empty, one
    [bytes] object was sent and it decodes back to the banner. *)
Theorem greeting_decodes_back cfg w :
  banner cfg <> [] ->
  fst (send_banner rt cfg w) = Ok tt ->
  exists greeting,
    sent (conn (snd (send_banner rt cfg w))) = sent (conn w) ++ [greeting]
    /\ encode_utf8 (banner cfg) = Some greeting
    /\ decode_utf8 greeting = Some (banner cfg).
Proof.
  intros Hb. unfold send_banner.
  destruct (banner cfg) as [|c t] eqn:Eb; [congruence|].
  unfold encode, bind.
  destruct (encode_utf8 (c :: t)) as [b|] eqn:Ee; [|discriminate].
  unfold ret, send.
  destruct (send_faults (conn w)) as [|[failure|] rest]; simpl;
    try discriminate; intros _; exists b;
    (split; [reflexivity|split; [reflexivity|now apply encode_then_decode]]).
Qed.

Lemma encode_point_small c :
  c < 0x800 ->
  exists bs, encode_point c = Some bs
             /\ List.length bs = (if is_ascii c then 1 else 2)%nat
             /\ (is_ascii c = true -> bs = [byte_of_N c]).
Proof.
  intros H. unfold encode_point, is_ascii.
  destruct (c <? 0x80) eqn:E1.
  - eexists. repeat split.
  - replace (c <? 0x800) with true by lia. eexists. repeat split.
    discriminate.
Qed.

(** X19.  A banner whose code points are all below U+0800 always
    encodes, and the greeting has one byte for each ASCII character and two
    for each other one: the bytes on the wire are the code points written
    in the table only when the banner is ASCII, and are more numerous
    otherwise (the RDP banner, written with [\xd0], goes out as twelve
    bytes, not eleven). *)
Theorem greeting_length s :
  Forall (fun c => c < 0x800) s ->
  exists greeting,
    encode_utf8 s = Some greeting
    /\ List.length greeting = (List.length s + count_non_ascii s)%nat
    /\ (forallb is_ascii s = true -> greeting = map byte_of_N s)
    /\ (forallb is_ascii s = false ->
        (List.length s < List.length greeting)%nat).
Proof.
  intros H.
  assert (G : exists greeting,
             encode_utf8 s = Some greeting
             /\ List.length greeting
                = (List.length s + count_non_ascii s)%nat
             /\ (forallb is_ascii s = true -> greeting = map byte_of_N s)).
  { induction H as [|c s Hc _ (g & Eg & Lg & Ag)].
    - exists []. repeat split.
    - destruct (encode_point_small c Hc) as (bs & Eb & Lb & Ab).
      exists (bs ++ g). cbn [encode_utf8]. rewrite Eb, Eg.
      split; [reflexivity|]. split.
      + rewrite length_app, Lb, Lg. unfold count_non_ascii. cbn [filter].
        destruct (is_ascii c); simpl; lia.
      + cbn [forallb map]. intros Ha. apply andb_true_iff in Ha.
        destruct Ha as [Ha1 Ha2]. now rewrite (Ab Ha1), (Ag Ha2). }
  destruct G as (g & Eg & Lg & Ag). exists g.
  split; [exact Eg|]. split; [exact Lg|]. split; [exact Ag|].
  intros Hn. rewrite Lg.
  assert (0 < count_non_ascii s)%nat; [|lia].
  clear - Hn. unfold count_non_ascii.
  induction s as [|c s IH]; [discriminate|].
  cbn [forallb filter] in *. destruct (is_ascii c); simpl in *; [|lia].
  now apply IH.
Qed.

End Utf8.

(** ** The further properties at work *)

(** X6 at work: the FTP greeting meets a broken pipe. *)
Lemma greeting_failure_ends_session_witness :
  sent (conn (snd (handle_connection ascii_runtime
                     (peer_of [Received (blit "hi")]) FTP
                     (fresh_world noon [] [Some (lit "[Errno 32] Broken pipe")]))))
  = []
  /\ sink (snd (handle_connection ascii_runtime
                  (peer_of [Received (blit "hi")]) FTP
                  (fresh_world noon [] [Some (lit "[Errno 32] Broken pipe")])))
     = recorded_all
         [msg_new_connection (name FTP) (lit "10.0.0.7") 40000;
          msg_error (name FTP) (lit "10.0.0.7")
                    (OSError (lit "[Errno 32] Broken pipe"));
          msg_closed (name FTP) (lit "10.0.0.7") 40000]
         (fresh_sink noon []).
Proof.
  destruct (greeting_failure_ends_session ascii_runtime
              (peer_of [Received (blit "hi")]) FTP
              (fresh_world noon [] [Some (lit "[Errno 32] Broken pipe")])
              (lit "10.0.0.7") 40000 (blit ("220 FTP Ready." ++ CRLF))
              (lit "[Errno 32] Broken pipe") []
              eq_refl ltac:(discriminate) eq_refl eq_refl (Forall_nil _))
    as (_ & H2 & H3 & _).
  split; [exact H3|exact H2].
Defined.

(** X7 at work: two lines sent to the FTP port. *)
Lemma every_chunk_is_logged_in_order_witness :
  sink (snd (handle_connection ascii_runtime
               (peer_of [Received (blit "USER a"); Received (blit "PASS b")])
               FTP (fresh_world noon [] [])))
  = recorded_all
      [msg_new_connection (name FTP) (lit "10.0.0.7") 40000;
       msg_data (name FTP) (lit "10.0.0.7") (lit "USER a");
       msg_data (name FTP) (lit "10.0.0.7") (lit "PASS b");
       msg_closed (name FTP) (lit "10.0.0.7") 40000]
      (fresh_sink noon []).
Proof.
  assert (Hg : greeting_goes_out FTP (conn (fresh_world noon [] []))).
  { right. split; [|reflexivity]. eexists. reflexivity. }
  assert (Hne : Forall (fun d : bytes => d <> [])
                       [blit "USER a"; blit "PASS b"]).
  { repeat constructor; discriminate. }
  exact (proj1 (proj2
           (every_chunk_is_logged_in_order ascii_runtime
              (peer_of [Received (blit "USER a"); Received (blit "PASS b")])
              FTP (fresh_world noon [] []) (lit "10.0.0.7") 40000
              [blit "USER a"; blit "PASS b"] []
              eq_refl eq_refl eq_refl Hne I Hg (Forall_nil _) (Forall_nil _)))).
Defined.

(** X8 at work: the connection is reset after one chunk. *)
Lemma recv_failure_is_logged_witness :
  sink (snd (handle_connection ascii_runtime
               (peer_of [Received (blit "x");
                         RecvFails (lit "[Errno 104] Connection reset by peer")])
               SSH (fresh_world noon [] [])))
  = recorded_all
      [msg_new_connection (name SSH) (lit "10.0.0.7") 40000;
       msg_data (name SSH) (lit "10.0.0.7") (lit "x");
       msg_error (name SSH) (lit "10.0.0.7")
                 (OSError (lit "[Errno 104] Connection reset by peer"));
       msg_closed (name SSH) (lit "10.0.0.7") 40000]
      (fresh_sink noon []).
Proof.
  assert (Hg : greeting_goes_out SSH (conn (fresh_world noon [] []))).
  { right. split; [|reflexivity]. eexists. reflexivity. }
  assert (Hne : Forall (fun d : bytes => d <> []) [blit "x"]).
  { repeat constructor; discriminate. }
  exact (proj1 (proj2
           (recv_failure_is_logged ascii_runtime
              (peer_of [Received (blit "x");
                        RecvFails (lit "[Errno 104] Connection reset by peer")])
              SSH (fresh_world noon [] []) (lit "10.0.0.7") 40000
              [blit "x"] (lit "[Errno 104] Connection reset by peer") []
              eq_refl eq_refl eq_refl Hne Hg (Forall_nil _) (Forall_nil _)))).
Defined.

(** X9 at work: the disk is full when the request of an HTTP client is to
    be recorded; the page is not sent. *)
Lemma failed_data_write_ends_session_witness :
  sent (conn (snd (handle_connection ascii_runtime
                     (peer_of [Received (blit "GET /")]) HTTP
                     (fresh_world noon [None; Some (lit "disk full")] []))))
  = [http_greeting].
Proof.
  assert (Hg : greeting_goes_out HTTP
                 (conn (fresh_world noon [None; Some (lit "disk full")] []))).
  { right. split; [|reflexivity]. eexists. reflexivity. }
  destruct (failed_data_write_ends_session ascii_runtime
              (peer_of [Received (blit "GET /")]) HTTP
              (fresh_world noon [None; Some (lit "disk full")] [])
              (lit "10.0.0.7") 40000 "G"%byte (blit "ET /") []
              (lit "disk full") []
              eq_refl eq_refl Hg eq_refl (Forall_nil _))
    as (_ & _ & _ & H4 & _).
  rewrite H4. reflexivity.
Defined.

(** X11 at work: a chunk of two lines, the second made to look like an
    event, is in the record as it came. *)
Lemma payload_keeps_inner_text_witness :
  contains (lit ("a" ++ String LF "CLOSED FTP"))
           (received_data_of (blit (" a" ++ String LF "CLOSED FTP" ++ CRLF)))
  = true.
Proof.
  exact (proj1 (payload_keeps_inner_text (lit "FTP") (lit "10.0.0.7")
                  (blit (" a" ++ String LF "CLOSED FTP" ++ CRLF))
                  (lit (" a" ++ String LF "CLOSED FTP" ++ CRLF))
                  (lit ("a" ++ String LF "CLOSED FTP"))
                  eq_refl ltac:(discriminate) eq_refl eq_refl eq_refl)).
Defined.

(** X12 at work: one client is served, then [accept] fails. *)
Lemma accept_failure_stops_listener_witness :
  start_honeypot
    (calm_network [Accepted (peer_of []);
                   AcceptFails (lit "[Errno 24] Too many open files")])
    FTP (fresh_world noon [] [])
  = (Ok tt,
     {| sink := recorded_all
                  [msg_listening FTP;
                   msg_fatal FTP
                     (OSError (lit "[Errno 24] Too many open files"))]
                  (fresh_sink noon []);
        conn := conn (fresh_world noon [] []);
        listener := {| bound := Some (BIND_IP, port FTP); listening := true;
                       server_closed := true;
                       spawned := [(peer_of [], FTP)] |} |}).
Proof.
  exact (accept_failure_stops_listener
           (calm_network [Accepted (peer_of []);
                          AcceptFails (lit "[Errno 24] Too many open files")])
           FTP (fresh_world noon [] []) [peer_of []]
           (lit "[Errno 24] Too many open files") []
           eq_refl eq_refl eq_refl eq_refl eq_refl (Forall_nil _)).
Defined.

(** X13 at work: no socket can be created. *)
Lemma socket_setup_failure_escapes_witness :
  start_honeypot
    {| socket_fault := Some (lit "[Errno 24] Too many open files");
       setsockopt_fault := None; bind_fault := None; listen_fault := None;
       arrivals := [] |}
    FTP (fresh_world noon [] [])
  = (Raise (OSError (lit "[Errno 24] Too many open files")),
     fresh_world noon [] []).
Proof.
  exact (socket_setup_failure_escapes
           {| socket_fault := Some (lit "[Errno 24] Too many open files");
              setsockopt_fault := None; bind_fault := None;
              listen_fault := None; arrivals := [] |}
           FTP (fresh_world noon [] [])
           (lit "[Errno 24] Too many open files") (or_introl eq_refl)).
Defined.

(** X14 at work: the disk is full when the listener is to record that it
    listens; the client that waits is never accepted. *)
Lemma listening_record_failure_stops_listener_witness :
  spawned (listener (snd (start_honeypot
                            (calm_network [Accepted (peer_of [])]) FTP
                            (fresh_world noon [Some (lit "disk full")] []))))
  = []
  /\ server_closed
       (listener (snd (start_honeypot
                         (calm_network [Accepted (peer_of [])]) FTP
                         (fresh_world noon [Some (lit "disk full")] []))))
     = true.
Proof.
  rewrite (listening_record_failure_stops_listener
             (calm_network [Accepted (peer_of [])]) FTP
             (fresh_world noon [Some (lit "disk full")] [])
             (lit "disk full") []
             eq_refl eq_refl eq_refl eq_refl eq_refl eq_refl).
  split; reflexivity.
Defined.

(** X17 at work: a word with blanks around it. *)
Lemma decoded_chunk_is_recoverable_witness :
  encode_utf8 (lit "  hi  ") = Some (blit "  hi  ").
Proof.
  exact (proj1 (decoded_chunk_is_recoverable (blit "  hi  ") (lit "  hi  ")
                  eq_refl)).
Defined.

(** X18 at work: the SSH greeting. *)
Lemma greeting_decodes_back_witness :
  exists greeting,
    sent (conn (snd (send_banner ascii_runtime SSH (fresh_world noon [] []))))
    = [greeting]
    /\ decode_utf8 greeting = Some (banner SSH).
Proof.
  destruct (greeting_decodes_back ascii_runtime SSH (fresh_world noon [] [])
              ltac:(discriminate) eq_refl)
    as (g & H1 & _ & H3).
  exists g. split; [exact H1|exact H3].
Defined.

(** X19 at work: the RDP banner, eleven characters, goes out as twelve
    bytes. *)
Lemma greeting_length_witness :
  List.length (banner RDP) = 11
  /\ exists greeting,
       encode_utf8 (banner RDP) = Some greeting
       /\ List.length greeting = 12.
Proof.
  split; [reflexivity|].
  assert (H : Forall (fun c => (c < 0x800)%N) (banner RDP)).
  { repeat constructor. }
  destruct (greeting_length (banner RDP) H) as (g & H1 & H2 & _).
  exists g. split; [exact H1|exact H2].
Defined.
